(** * The wallet JSON-RPC provider of near-api-js

    A shallow embedding of [providers/wallet-rpc-provider.ts]: the request
    pipeline [sendJsonRpc] with its request identifiers, its retry loop, the
    classification of node errors and the unwrapping of transport replies,
    together with the part of the class [WalletRpcProvider] that owns the
    transport. *)

From Stdlib Require Import ZArith QArith List String Ascii Bool Lia.
From Stdlib Require Import DecimalString Sorted.
Import ListNotations.

Set Warnings "-register-all".
Local Open Scope string_scope.
Local Open Scope Z_scope.

(** ** JavaScript values

    The transport answers with [any]; the provider inspects the answer with
    [Array.isArray], [typeof], truthiness tests, property reads and template
    literals.  The values are the JSON ones plus [undefined].  A number is
    an integer; the integers the model speaks for are the safe ones, of
    magnitude up to [2^53] ([safe_integer], [exact]): these are the integers
    a double holds one by one and prints digit by digit. *)

Module Js.

Inductive value : Type :=
| Undefined
| Null
| Bool (b : bool)
| Num (n : Z)
| Str (s : string)
| Arr (items : list value)
| Obj (fields : list (string * value)).

Inductive type_tag : Type :=
| TUndefined | TObject | TBoolean | TNumber | TString.

(** [typeof v]; [null] and arrays are of type ['object']. *)
Definition typeof (v : value) : type_tag :=
  match v with
  | Undefined => TUndefined
  | Null => TObject
  | Bool _ => TBoolean
  | Num _ => TNumber
  | Str _ => TString
  | Arr _ => TObject
  | Obj _ => TObject
  end.

Definition type_tag_eqb (a b : type_tag) : bool :=
  match a, b with
  | TUndefined, TUndefined | TObject, TObject | TBoolean, TBoolean
  | TNumber, TNumber | TString, TString => true
  | _, _ => false
  end.

(** [if (v)]: the falsy values are [undefined], [null], [false], [0] and
    the empty string. *)
Definition truthy (v : value) : bool :=
  match v with
  | Undefined | Null => false
  | Bool b => b
  | Num n => negb (n =? 0)
  | Str s => negb (String.eqb s "")
  | Arr _ | Obj _ => true
  end.

Definition isArray (v : value) : bool :=
  match v with Arr _ => true | _ => false end.

Definition is_nullish (v : value) : bool :=
  match v with Undefined | Null => true | _ => false end.

(** [v === 'literal']. *)
Definition is_string (lit : string) (v : value) : bool :=
  match v with Str s => String.eqb s lit | _ => false end.

Fixpoint assoc (k : string) (fs : list (string * value)) : option value :=
  match fs with
  | [] => None
  | (k', v) :: rest => if String.eqb k k' then Some v else assoc k rest
  end.

(** [v.k] for a property name [k] that is no built-in member ([length], the
    methods of the prototypes): the provider reads [error], [data], [code],
    [message], [name], [error_message], [error_type], [result], [type],
    [chain_id], [address] and [pubKeys] only.  [None] stands for the
    TypeError that reading a property of [undefined] or [null] raises. *)
Definition get (v : value) (k : string) : option value :=
  match v with
  | Undefined | Null => None
  | Obj fs => Some (match assoc k fs with Some x => x | None => Undefined end)
  | _ => Some Undefined
  end.

(** [a[0]] on an array. *)
Definition first (v : value) : value :=
  match v with
  | Arr (x :: _) => x
  | _ => Undefined
  end.

(** The integers of magnitude up to [2^53].  Beyond them a double holds
    only some of the integers and is printed by the shortest digits that
    read back as it, in exponent form from [10^21] on. *)
Definition safe_integer (n : Z) : bool := Z.abs n <=? 2 ^ 53.

(** The numbers in [v], at any depth, are safe integers. *)
Fixpoint exact (v : value) : bool :=
  match v with
  | Num n => safe_integer n
  | Arr items =>
      (fix all (l : list value) : bool :=
         match l with
         | [] => true
         | x :: rest => exact x && all rest
         end) items
  | Obj fs =>
      (fix all (l : list (string * value)) : bool :=
         match l with
         | [] => true
         | (_, x) :: rest => exact x && all rest
         end) fs
  | _ => true
  end.

(** The decimal digits of an integer, with its sign: what is printed for a
    safe integer. *)
Definition string_of_Z (n : Z) : string :=
  NilZero.string_of_int (Z.to_int n).

Fixpoint join (sep : string) (parts : list string) : string :=
  match parts with
  | [] => ""
  | [p] => p
  | p :: rest => p ++ sep ++ join sep rest
  end.

(** The string a template literal [`${v}`] inserts; [None] is the TypeError
    of a value that cannot be turned into a primitive.  An object prints as
    ['[object Object]'] by the [toString] it inherits; an own property
    [toString], which is no function in a value of this kind, hides that one,
    and the [valueOf] that is tried next gives back the object: a TypeError.
    An array joins the strings of its elements, the empty string for
    [undefined] and [null], and fails where one of them fails.  A number
    prints its digits: this is what JavaScript prints for the safe integers
    ([exact]). *)
Fixpoint toString (v : value) : option string :=
  match v with
  | Undefined => Some "undefined"
  | Null => Some "null"
  | Bool true => Some "true"
  | Bool false => Some "false"
  | Num n => Some (string_of_Z n)
  | Str s => Some s
  | Arr items =>
      option_map (join ",")
        ((fix each (l : list value) : option (list string) :=
            match l with
            | [] => Some []
            | x :: rest =>
                match (if is_nullish x then Some "" else toString x) with
                | None => None
                | Some s =>
                    match each rest with
                    | None => None
                    | Some ss => Some (s :: ss)
                    end
                end
            end) items)
  | Obj fs =>
      match assoc "toString" fs with
      | Some _ => None
      | None => Some "[object Object]"
      end
  end.

(** [s.includes(sub)]. *)
Fixpoint includes (s sub : string) : bool :=
  if String.prefix sub s then true
  else match s with
       | EmptyString => false
       | String _ rest => includes rest sub
       end.

End Js.

(** ** Requests, exceptions and the outside world *)

(** The interface [RequestParams]. *)
Module Request.

Record t : Type := make
  { jsonrpc : string;
    id : Z;
    method : string;
    params : Js.value }.

End Request.

(** How a call into the wallet ends: a promise resolves to a value or rejects
    with a reason; a plain function returns a value or throws a reason. *)
Inductive settled : Type :=
| Resolved (v : Js.value)
| Rejected (reason : Js.value).

(** The listeners the class hands to [WalletProvider.on]: its own two
    bound methods, or a listener of the caller of [on]. *)
Inductive listener : Type :=
| ListenUpdateNetwork
| ListenUpdateAccount
| ListenCaller (tag : nat).

(** Modelled from the spec: the class [TypedError] of [utils/errors], which
    is not part of the sources: an error built by [new TypedError(message,
    type)] carries the message and has [type] as its type discriminator.

    The other constructors stand for the other things the provider sees
    thrown, one per origin: [new Error(message)], a TypeError raised by the
    runtime, the value of [parseRpcError], and the reason for which a call
    into the wallet was rejected. *)
Inductive exn : Type :=
| TypedError (message : string) (type : Js.value)
| Error (message : string)
| TypeError
| Parsed (e : Js.value)
| Rejection (reason : Js.value).

Inductive completion (A : Type) : Type :=
| Normal (a : A)
| Abrupt (e : exn).

Arguments Normal {A} a.
Arguments Abrupt {A} e.

(** What the provider leaves behind outside of itself: a request handed to
    the transport, a wait, a line of [console.warn]. *)
Inductive event : Type :=
| Requested (r : Request.t)
| Slept (ms : Q)
| Warned (message : string) (arg : Js.value).

(** Objects are known by their place in the store. *)
Definition ref : Type := nat.

(** [error.type] as the [catch] clause reads it; [None] is the TypeError of a
    read on [undefined] or [null]. *)
Definition exn_type (e : exn) : option Js.value :=
  match e with
  | TypedError _ type => Some type
  | Error _ => Some Js.Undefined
  | TypeError => Some Js.Undefined
  | Parsed v => Js.get v "type"
  | Rejection v => Js.get v "type"
  end.

(** Default number of retries before giving up on a request. *)
Definition REQUEST_RETRY_NUMBER : nat := 12.

(** Default wait until next retry in millis. *)
Definition REQUEST_RETRY_WAIT : Q := 500.

(** Exponential back off for waiting to retry. *)
Definition REQUEST_RETRY_WAIT_BACKOFF : Q := 3 # 2.

(** The first value of the module-level counter [_nextId]. *)
Definition FIRST_ID : Z := 123.

(** The integers up to [2^53] are the ones a double counts exactly. *)
Definition MAX_EXACT : Z := 2 ^ 53.

(** The value [_nextId] holds after [_nextId++]: one more, except at [2^53],
    where the sum rounds back to [2^53]. *)
Definition incremented (n : Z) : Z :=
  if n <? MAX_EXACT then n + 1 else n.


(** ** Programs and the world they run in *)

Section Provider.

(** The state of whatever is behind the transport (the wallet bridge, the
    node). *)
Variable Ext : Type.

(** [parseRpcError] of [utils/rpc_errors], which is not part of the sources:
    the parser of structured node errors.  The value it returns is thrown as
    it is. *)
Variable parseRpcError : Js.value -> Js.value.

(** The interface [WalletProvider].  The transport decides on its answer
    when it is called. *)
Record WalletProvider : Type :=
  { getAccount : Ext -> settled * Ext;
    request : Request.t -> Ext -> settled * Ext;
    on : string -> listener -> Ext -> settled * Ext }.

(** The private fields of an instance of [WalletRpcProvider]. *)
Record Instance : Type :=
  { _provider : option WalletProvider;
    _network : Js.value;
    _account : Js.value;
    _pubKeys : Js.value }.

(** The fields as their initialisers leave them. *)
Definition blank : Instance :=
  {| _provider := None; _network := Js.Str "";
     _account := Js.Str ""; _pubKeys := Js.Arr [] |}.

Definition set_provider (p : option WalletProvider) (i : Instance) :=
  {| _provider := p; _network := _network i;
     _account := _account i; _pubKeys := _pubKeys i |}.

Definition set_network (v : Js.value) (i : Instance) :=
  {| _provider := _provider i; _network := v;
     _account := _account i; _pubKeys := _pubKeys i |}.

Definition set_account (v : Js.value) (i : Instance) :=
  {| _provider := _provider i; _network := _network i;
     _account := v; _pubKeys := _pubKeys i |}.

Definition set_pubKeys (v : Js.value) (i : Instance) :=
  {| _provider := _provider i; _network := _network i;
     _account := _account i; _pubKeys := v |}.

(** The state of the process: the module-level counter [_nextId], one for
    all instances; the environment variable [NEAR_NO_LOGS]; the outside; the
    events so far, the latest first; the instances. *)
Record World : Type :=
  { nextId : Z;
    NEAR_NO_LOGS : option string;
    ext : Ext;
    events : list event;
    heap : list Instance }.

Definition with_nextId (n : Z) (w : World) : World :=
  {| nextId := n; NEAR_NO_LOGS := NEAR_NO_LOGS w; ext := ext w;
     events := events w; heap := heap w |}.

Definition with_ext (x : Ext) (w : World) : World :=
  {| nextId := nextId w; NEAR_NO_LOGS := NEAR_NO_LOGS w; ext := x;
     events := events w; heap := heap w |}.

Definition with_event (e : event) (w : World) : World :=
  {| nextId := nextId w; NEAR_NO_LOGS := NEAR_NO_LOGS w; ext := ext w;
     events := e :: events w; heap := heap w |}.

Definition with_heap (h : list Instance) (w : World) : World :=
  {| nextId := nextId w; NEAR_NO_LOGS := NEAR_NO_LOGS w; ext := ext w;
     events := events w; heap := h |}.

(** The world when the module is loaded. *)
Definition boot (no_logs : option string) (x : Ext) : World :=
  {| nextId := FIRST_ID; NEAR_NO_LOGS := no_logs; ext := x;
     events := []; heap := [] |}.

Definition load (this : ref) (w : World) : Instance :=
  nth this (heap w) blank.

Fixpoint update (this : ref) (f : Instance -> Instance)
    (h : list Instance) : list Instance :=
  match h, this with
  | [], _ => []
  | i :: rest, O => f i :: rest
  | i :: rest, S n => i :: update n f rest
  end.

(** A method as a tree of the steps it takes on the world:
    - [PostIncrement]: [_nextId++], with the value before the increment;
    - [Getenv]: [process.env['NEAR_NO_LOGS']];
    - [Warn]: [console.warn(message, arg)];
    - [Load] and [Store]: a read of the fields of [this], an assignment to
      one of them;
    - [New]: the allocation of an instance;
    - [Request], [GetAccount], [On]: the calls [p.request(r)],
      [p.getAccount()] and [p.on(message, l)] into the wallet;
    - [Sleep]: a wait of [ms] milliseconds, during which the call is
      suspended;
    - [Await]: the point where an [await] suspends the call.
    [OutOfFuel] stands for the part of an unbounded recursion that is cut
    off. *)
Inductive prog (A : Type) : Type :=
| Ret (a : A)
| Throw (e : exn)
| OutOfFuel
| PostIncrement (k : Z -> prog A)
| Getenv (k : option string -> prog A)
| Warn (message : string) (arg : Js.value) (k : prog A)
| Load (this : ref) (k : Instance -> prog A)
| Store (this : ref) (f : Instance -> Instance) (k : prog A)
| New (fields : Instance) (k : ref -> prog A)
| Request (p : WalletProvider) (r : Request.t) (k : settled -> prog A)
| GetAccount (p : WalletProvider) (k : settled -> prog A)
| On (p : WalletProvider) (message : string) (l : listener)
     (k : settled -> prog A)
| Sleep (ms : Q) (k : prog A)
| Await (k : prog A).

Arguments Ret {A} a.
Arguments Throw {A} e.
Arguments OutOfFuel {A}.
Arguments PostIncrement {A} k.
Arguments Getenv {A} k.
Arguments Warn {A} message arg k.
Arguments Load {A} this k.
Arguments Store {A} this f k.
Arguments New {A} fields k.
Arguments Request {A} p r k.
Arguments GetAccount {A} p k.
Arguments On {A} p message l k.
Arguments Sleep {A} ms k.
Arguments Await {A} k.

Fixpoint bind {A B} (c : prog A) (f : A -> prog B) : prog B :=
  match c with
  | Ret a => f a
  | Throw e => Throw e
  | OutOfFuel => OutOfFuel
  | PostIncrement k => PostIncrement (fun n => bind (k n) f)
  | Getenv k => Getenv (fun v => bind (k v) f)
  | Warn m a k => Warn m a (bind k f)
  | Load this k => Load this (fun i => bind (k i) f)
  | Store this g k => Store this g (bind k f)
  | New i k => New i (fun r => bind (k r) f)
  | Request p r k => Request p r (fun s => bind (k s) f)
  | GetAccount p k => GetAccount p (fun s => bind (k s) f)
  | On p m l k => On p m l (fun s => bind (k s) f)
  | Sleep ms k => Sleep ms (bind k f)
  | Await k => Await (bind k f)
  end.

(** [try { c } catch (error) { handler }]. *)
Fixpoint try_catch {A} (c : prog A) (handler : exn -> prog A) : prog A :=
  match c with
  | Ret a => Ret a
  | Throw e => handler e
  | OutOfFuel => OutOfFuel
  | PostIncrement k => PostIncrement (fun n => try_catch (k n) handler)
  | Getenv k => Getenv (fun v => try_catch (k v) handler)
  | Warn m a k => Warn m a (try_catch k handler)
  | Load this k => Load this (fun i => try_catch (k i) handler)
  | Store this g k => Store this g (try_catch k handler)
  | New i k => New i (fun r => try_catch (k r) handler)
  | Request p r k => Request p r (fun s => try_catch (k s) handler)
  | GetAccount p k => GetAccount p (fun s => try_catch (k s) handler)
  | On p m l k => On p m l (fun s => try_catch (k s) handler)
  | Sleep ms k => Sleep ms (try_catch k handler)
  | Await k => Await (try_catch k handler)
  end.

(** [await c] for a call [c] of an asynchronous function: the caller is
    suspended once more when [c] has settled. *)
Fixpoint await {A} (c : prog A) : prog A :=
  match c with
  | Ret a => Await (Ret a)
  | Throw e => Await (Throw e)
  | OutOfFuel => OutOfFuel
  | PostIncrement k => PostIncrement (fun n => await (k n))
  | Getenv k => Getenv (fun v => await (k v))
  | Warn m a k => Warn m a (await k)
  | Load this k => Load this (fun i => await (k i))
  | Store this g k => Store this g (await k)
  | New i k => New i (fun r => await (k r))
  | Request p r k => Request p r (fun s => await (k s))
  | GetAccount p k => GetAccount p (fun s => await (k s))
  | On p m l k => On p m l (fun s => await (k s))
  | Sleep ms k => Sleep ms (await k)
  | Await k => Await (await k)
  end.

(** [c] called and not awaited by a caller that runs on, [k] being what the
    caller does next: the steps of [c] up to the point where it is suspended
    first (its first [await], or a wait it begins) are steps of the caller,
    and [k] goes on, in the same turn, with the task that is left of [c]. *)
Fixpoint start {A B} (c : prog B) (k : prog B -> prog A) : prog A :=
  match c with
  | Ret b => k (Ret b)
  | Throw e => k (Throw e)
  | OutOfFuel => k OutOfFuel
  | PostIncrement f => PostIncrement (fun n => start (f n) k)
  | Getenv f => Getenv (fun v => start (f v) k)
  | Warn m a c' => Warn m a (start c' k)
  | Load this f => Load this (fun i => start (f i) k)
  | Store this g c' => Store this g (start c' k)
  | New i f => New i (fun r => start (f r) k)
  | Request p r f => Request p r (fun s => start (f s) k)
  | GetAccount p f => GetAccount p (fun s => start (f s) k)
  | On p m l f => On p m l (fun s => start (f s) k)
  | Sleep ms c' => Sleep ms (k c')
  | Await c' => k c'
  end.

Notation "x <- c ;; k" := (bind c (fun x => k))
  (at level 61, c at next level, right associativity).
Notation "c ;;; k" := (bind c (fun _ => k))
  (at level 61, right associativity).

(** The value of a settled call, or the throw of its reason. *)
Definition settle (s : settled) : prog Js.value :=
  match s with
  | Resolved v => Ret v
  | Rejected reason => Throw (Rejection reason)
  end.

(** [v.k], a TypeError on [undefined] and [null]. *)
Definition read (v : Js.value) (k : string) : prog Js.value :=
  match Js.get v k with
  | Some x => Ret x
  | None => Throw TypeError
  end.

(** *** Running a program *)

(** A program run on its own from start to end: [None] when it runs into
    [OutOfFuel]. *)
Fixpoint run {A} (c : prog A) (w : World) : option (completion A * World) :=
  match c with
  | Ret a => Some (Normal a, w)
  | Throw e => Some (Abrupt e, w)
  | OutOfFuel => None
  | PostIncrement k =>
      run (k (nextId w)) (with_nextId (incremented (nextId w)) w)
  | Getenv k => run (k (NEAR_NO_LOGS w)) w
  | Warn m a k => run k (with_event (Warned m a) w)
  | Load this k => run (k (load this w)) w
  | Store this f k => run k (with_heap (update this f (heap w)) w)
  | New i k => run (k (List.length (heap w))) (with_heap (heap w ++ [i]) w)
  | Request p r k =>
      let (s, x) := request p r (ext w) in
      run (k s) (with_ext x (with_event (Requested r) w))
  | GetAccount p k =>
      let (s, x) := getAccount p (ext w) in run (k s) (with_ext x w)
  | On p m l k =>
      let (s, x) := on p m l (ext w) in run (k s) (with_ext x w)
  | Sleep ms k => run k (with_event (Slept ms) w)
  | Await k => run k w
  end.

(** A program run up to the point where it is suspended next, or to its
    end: in between no other program gets to run. *)
Fixpoint advance {A} (c : prog A) (w : World) : prog A * World :=
  match c with
  | Ret a => (Ret a, w)
  | Throw e => (Throw e, w)
  | OutOfFuel => (OutOfFuel, w)
  | PostIncrement k =>
      advance (k (nextId w)) (with_nextId (incremented (nextId w)) w)
  | Getenv k => advance (k (NEAR_NO_LOGS w)) w
  | Warn m a k => advance k (with_event (Warned m a) w)
  | Load this k => advance (k (load this w)) w
  | Store this f k => advance k (with_heap (update this f (heap w)) w)
  | New i k =>
      advance (k (List.length (heap w))) (with_heap (heap w ++ [i]) w)
  | Request p r k =>
      let (s, x) := request p r (ext w) in
      advance (k s) (with_ext x (with_event (Requested r) w))
  | GetAccount p k =>
      let (s, x) := getAccount p (ext w) in advance (k s) (with_ext x w)
  | On p m l k =>
      let (s, x) := on p m l (ext w) in advance (k s) (with_ext x w)
  | Sleep ms k => (k, with_event (Slept ms) w)
  | Await k => (k, w)
  end.

(** ** The retry loop *)

(** Modelled from the spec: what [exponentialBackoff] of
    [utils/exponential-backoff], which is not part of the sources, hands
    back to [sendJsonRpc]: the value an attempt has settled on, or nothing
    when the attempts are used up. *)
Inductive backoff_outcome : Type :=
| Settled (v : Js.value)
| Exhausted.

(** Modelled from the spec: [shouldRetry(attempt, maxAttempts)] of the
    backoff policy, the contract of [exponentialBackoff]. *)
Definition shouldRetry (attempt maxAttempts : nat) : bool :=
  (attempt <? maxAttempts)%nat.

(** Modelled from the spec: [delayFor(attempt, baseDelay, multiplier)] of
    the backoff policy, [baseDelay * multiplier^attempt]. *)
Definition delayFor (attempt : nat) (baseDelay multiplier : Q) : Q :=
  (baseDelay * multiplier ^ Z.of_nat attempt)%Q.

(** Modelled from the spec: the loop of [exponentialBackoff].  [getResult]
    is awaited; a throw of it ends the loop at once, a value other than
    [null] is the outcome; on [null] the attempt counter goes up and, while
    the policy allows another attempt, the loop sleeps [delayFor] and runs
    [getResult] again; after [maxAttempts] attempts the loop ends without a
    value.  [budget] is the number of attempts left. *)
Fixpoint backoff_loop (budget attempt maxAttempts : nat)
    (baseDelay multiplier : Q) (getResult : prog Js.value)
  : prog backoff_outcome :=
  match budget with
  | O => Ret Exhausted
  | S budget' =>
      result <- await getResult ;;
      match result with
      | Js.Null =>
          if shouldRetry (S attempt) maxAttempts then
            Sleep (delayFor attempt baseDelay multiplier)
              (backoff_loop budget' (S attempt) maxAttempts
                 baseDelay multiplier getResult)
          else Ret Exhausted
      | v => Ret (Settled v)
      end
  end.

(** Modelled from the spec: [exponentialBackoff(startWaitTime, retryNumber,
    waitBackoff, getResult)], called as [sendJsonRpc] calls it. *)
Definition exponentialBackoff (startWaitTime : Q) (retryNumber : nat)
    (waitBackoff : Q) (getResult : prog Js.value) : prog backoff_outcome :=
  backoff_loop retryNumber 0 retryNumber startWaitTime waitBackoff getResult.

(** ** [sendJsonRpc] *)

Notation "'let?' x := e 'in' k" :=
  (match e with Some x => k | None => TypeError end)
  (at level 61, x name, e at next level, right associativity).

(** What the branch [if (response.error)] throws for [error], the truthy
    value of [response.error]. *)
Definition rpc_error (error : Js.value) : exn :=
  let? data := Js.get error "data" in
  match Js.typeof data with
  | Js.TObject =>
      let? error_message := Js.get data "error_message" in
      match error_message with
      | Js.Str error_message =>
          let? error_type := Js.get data "error_type" in
          match error_type with
          | Js.Str error_type =>
              (* the node returned an error in the old format *)
              TypedError error_message (Js.Str error_type)
          | _ => Parsed (parseRpcError data)
          end
      | _ => Parsed (parseRpcError data)
      end
  | _ =>
      let? code := Js.get error "code" in
      let? code_text := Js.toString code in
      let? message := Js.get error "message" in
      let? message_text := Js.toString message in
      let? data_text := Js.toString data in
      let errorMessage :=
        "[" ++ code_text ++ "] " ++ message_text ++ ": " ++ data_text in
      if Js.is_string "Timeout" data
         || Js.includes errorMessage "Timeout error"
         || Js.includes errorMessage "query has timed out"
      then TypedError errorMessage (Js.Str "TimeoutError")
      else
        let? name := Js.get error "name" in
        TypedError errorMessage name
  end.

(** The [catch] clause of an attempt. *)
Definition on_throw (method : string) (params : Js.value) (error : exn)
  : prog Js.value :=
  match exn_type error with
  | None => Throw TypeError
  | Some type =>
      if Js.is_string "TimeoutError" type then
        Getenv (fun no_logs =>
          match no_logs with
          | None | Some "" =>
              Warn ("Retrying request to " ++ method
                      ++ " as it has timed out") params
                   (Ret Js.Null)
          | Some _ => Ret Js.Null
          end)
      else Throw error
  end.

(** The function [sendJsonRpc] hands to [exponentialBackoff];
    [txStatusString] is the method of that name of [this]. *)
Definition attempt (txStatusString : Js.value -> Js.value -> prog Js.value)
    (this : ref) (method : string) (params : Js.value) : prog Js.value :=
  try_catch
    (Load this (fun fields =>
     match _provider fields with
     | Some provider =>
         id <- PostIncrement Ret ;;
         let req := Request.make "2.0" id method params in
         response <- Request provider req (fun s => Await (settle s)) ;;
         if Js.isArray response then
           (* Success when error is not exist *)
           Load this (fun fields' =>
           txStatus <- await (txStatusString (Js.first response)
                                (_account fields')) ;;
           Ret (Js.Obj [("reesult", txStatus)]))
         else
           error <- read response "error" ;;
           if Js.truthy error then Throw (rpc_error error)
           else
             (* Success when response.error is not exist *)
             Ret (Js.Obj [("result", response)])
     | None => Throw (Error "Provider not exist")
     end))
    (on_throw method params).

Definition retries_exceeded (method : string) : exn :=
  TypedError
    ("Exceeded " ++ Js.string_of_Z (Z.of_nat REQUEST_RETRY_NUMBER)
       ++ " attempts for request to " ++ method ++ ".")
    (Js.Str "RetriesExceeded").

(** Modelled from the spec: [const { result } = response] for what
    [exponentialBackoff], which is not part of the sources, has handed back:
    the [result] of the value an attempt has settled on; when the loop has
    given up, the spec has the caller find no [result] and go on to the
    failure [RetriesExceeded]. *)
Definition result_of (response : backoff_outcome) : prog Js.value :=
  match response with
  | Settled v => read v "result"
  | Exhausted => Ret Js.Undefined
  end.

(** [const { result } = response] and what follows it. *)
Definition unwrap (method : string) (response : backoff_outcome)
  : prog Js.value :=
  result <- result_of response ;;
  match Js.typeof result with
  | Js.TUndefined => Throw (retries_exceeded method)
  | _ => Ret result
  end.

(** [sendJsonRpc(method, params)] on [this].  [txStatusString] calls
    [sendJsonRpc] again, and so on for as long as the transport answers with
    arrays: [fuel] bounds the depth of these calls. *)
Fixpoint sendJsonRpc (fuel : nat) (this : ref) (method : string)
    (params : Js.value) : prog Js.value :=
  match fuel with
  | O => OutOfFuel
  | S fuel' =>
      let txStatusString txHash accountId :=
        sendJsonRpc fuel' this "tx" (Js.Arr [txHash; accountId]) in
      response <- await (exponentialBackoff REQUEST_RETRY_WAIT
                           REQUEST_RETRY_NUMBER REQUEST_RETRY_WAIT_BACKOFF
                           (attempt txStatusString this method params)) ;;
      unwrap method response
  end.

Definition txStatusString (fuel : nat) (this : ref)
    (txHash accountId : Js.value) : prog Js.value :=
  sendJsonRpc fuel this "tx" (Js.Arr [txHash; accountId]).

Definition status (fuel : nat) (this : ref) : prog Js.value :=
  sendJsonRpc fuel this "status" (Js.Arr []).

(** ** The instance *)

(** [init()]; a method without [return] yields [undefined]. *)
Definition init (fuel : nat) (this : ref) : prog Js.value :=
  Load this (fun fields =>
  match _provider fields with
  | Some _ =>
      st <- await (status fuel this) ;;
      chain_id <- read st "chain_id" ;;
      Store this (set_network chain_id)
        (Load this (fun fields' =>
         match _provider fields' with
         | Some p =>
             GetAccount p (fun s => Await (
               account <- settle s ;;
               Store this (set_account account) (Ret Js.Undefined)))
         | None => Throw TypeError
         end))
  | None => Ret Js.Undefined
  end).

(** [constructor(provider)]; [None] is a [null] argument.  The call
    [this.init()] at its end is not awaited: [init] runs, inside the
    constructor, up to its first [await], and the constructor hands back the
    new instance and the task that is left of [init]. *)
Definition constructor (fuel : nat) (provider : option WalletProvider)
  : prog (ref * prog Js.value) :=
  New blank (fun this =>
  Store this (set_provider provider)
    (Load this (fun fields =>
     match _provider fields with
     | Some p =>
         On p "chainChanged" ListenUpdateNetwork (fun s =>
           settle s ;;;
           Load this (fun fields' =>
           match _provider fields' with
           | Some p' =>
               On p' "accountsChanged" ListenUpdateAccount (fun s' =>
                 settle s' ;;;
                 start (init fuel this) (fun task => Ret (this, task)))
           | None => Throw TypeError
           end))
     | None => Throw TypeError
     end))).

(** [updateNetwork(chainId)]. *)
Definition updateNetwork (this : ref) (chainId : Js.value) : prog Js.value :=
  Store this (set_network chainId) (Ret Js.Undefined).

(** [updateAccount(account)]. *)
Definition updateAccount (this : ref) (account : Js.value) : prog Js.value :=
  address <- read account "address" ;;
  Store this (set_account address)
    (pubKeys <- read account "pubKeys" ;;
     Store this (set_pubKeys pubKeys) (Ret Js.Undefined)).

(** [on(message, listener)]. *)
Definition subscribe (this : ref) (message : string) (l : listener)
  : prog Js.value :=
  Load this (fun fields =>
  match _provider fields with
  | Some p => On p message l (fun s => settle s ;;; Ret Js.Undefined)
  | None => Ret Js.Undefined
  end).

(** What is called on an instance once it is constructed: the two listeners
    (by the wallet), [on], and [sendJsonRpc], directly or from one of the
    public methods, which shape [method] and [params] and reach the fields
    and the transport through [sendJsonRpc] only. *)
Inductive operation : Type :=
| OpUpdateNetwork (chainId : Js.value)
| OpUpdateAccount (account : Js.value)
| OpOn (message : string) (l : listener)
| OpSendJsonRpc (method : string) (params : Js.value).

Definition task_of (fuel : nat) (this : ref) (op : operation)
  : prog Js.value :=
  match op with
  | OpUpdateNetwork chainId => updateNetwork this chainId
  | OpUpdateAccount account => updateAccount this account
  | OpOn message l => subscribe this message l
  | OpSendJsonRpc method params => sendJsonRpc fuel this method params
  end.

(** ** The process

    The instances constructed so far, the calls in flight and the world.
    One call at a time runs, from where it was suspended to where it is
    suspended next. *)
Record System : Type :=
  { constructed : list ref;
    pool : list (prog Js.value);
    world : World }.

Fixpoint replace {A} (i : nat) (a : A) (l : list A) : list A :=
  match l, i with
  | [], _ => []
  | _ :: rest, O => a :: rest
  | x :: rest, S n => x :: replace n a rest
  end.

Inductive reachable : System -> Prop :=
| reach_boot : forall no_logs x,
    reachable {| constructed := []; pool := []; world := boot no_logs x |}
| reach_outside : forall s x,
    reachable s ->
    reachable {| constructed := constructed s; pool := pool s;
                 world := with_ext x (world s) |}
| reach_new : forall s fuel provider this task w,
    reachable s ->
    run (constructor fuel provider) (world s) = Some (Normal (this, task), w) ->
    reachable {| constructed := this :: constructed s;
                 pool := pool s ++ [task]; world := w |}
| reach_new_failed : forall s fuel provider e w,
    reachable s ->
    run (constructor fuel provider) (world s) = Some (Abrupt e, w) ->
    reachable {| constructed := constructed s; pool := pool s; world := w |}
| reach_call : forall s fuel this op,
    reachable s ->
    In this (constructed s) ->
    reachable {| constructed := constructed s;
                 pool := pool s ++ [task_of fuel this op];
                 world := world s |}
| reach_resume : forall s i t t' w,
    reachable s ->
    nth_error (pool s) i = Some t ->
    advance t (world s) = (t', w) ->
    reachable {| constructed := constructed s;
                 pool := replace i t' (pool s); world := w |}.

(** The ids of the requests among the events, the earliest first. *)
Fixpoint request_ids (evs : list event) : list Z :=
  match evs with
  | [] => []
  | Requested r :: rest => request_ids rest ++ [Request.id r]
  | _ :: rest => request_ids rest
  end.

Fixpoint count_requests (evs : list event) : nat :=
  match evs with
  | [] => O
  | Requested _ :: rest => S (count_requests rest)
  | _ :: rest => count_requests rest
  end.

Fixpoint count_sleeps (evs : list event) : nat :=
  match evs with
  | [] => O
  | Slept _ :: rest => S (count_sleeps rest)
  | _ :: rest => count_sleeps rest
  end.

(** [n], [n + 1], ..., [len] numbers in all. *)
Fixpoint count_from (n : Z) (len : nat) : list Z :=
  match len with
  | O => []
  | S len' => n :: count_from (n + 1) len'
  end.

(** A program in which every request is handed to the transport right
    after its id was taken from the counter, and in no other way; [held] is
    the id that was taken and is not handed over yet. *)
Fixpoint stamps_from {A} (held : option Z) (c : prog A) : Prop :=
  match c with
  | Ret _ | Throw _ | OutOfFuel => held = None
  | PostIncrement k => held = None /\ forall n, stamps_from (Some n) (k n)
  | Request _ r k =>
      held = Some (Request.id r) /\ forall s, stamps_from None (k s)
  | Getenv k => held = None /\ forall v, stamps_from None (k v)
  | Load _ k => held = None /\ forall i, stamps_from None (k i)
  | New _ k => held = None /\ forall r, stamps_from None (k r)
  | GetAccount _ k => held = None /\ forall s, stamps_from None (k s)
  | On _ _ _ k => held = None /\ forall s, stamps_from None (k s)
  | Warn _ _ k | Store _ _ k | Sleep _ k | Await k =>
      held = None /\ stamps_from None k
  end.

Definition stamps {A} (c : prog A) : Prop := stamps_from None c.

(** The world [w] is a later state of a world with the counter at [n] and
    the request ids [ids]: as long as the counter counts exactly, the ids of
    the requests since are the values the counter went through. *)
Definition extends_from (n : Z) (ids : list Z) (w : World) : Prop :=
  n <= nextId w /\
  (nextId w < MAX_EXACT ->
   request_ids (events w)
     = (ids ++ count_from n (Z.to_nat (nextId w - n)))%list).

Definition extends (w w' : World) : Prop :=
  extends_from (nextId w) (request_ids (events w)) w'.

(** The same for a world in which the id [held] was taken and is not
    handed over yet. *)
Definition pending (n : Z) (ids : list Z) (held : option Z) (w : World)
  : Prop :=
  match held with
  | None => extends_from n ids w
  | Some h =>
      n <= h /\ h <= nextId w /\
      (nextId w < MAX_EXACT ->
       nextId w = h + 1 /\
       request_ids (events w)
         = (ids ++ count_from n (Z.to_nat (h - n)))%list)
  end.

(** The instances in [known] are in the store and bound to a transport. *)
Definition bound (known : list ref) (w : World) : Prop :=
  forall this, In this known ->
    (this < List.length (heap w))%nat /\ _provider (load this w) <> None.

(** A program that reads the fields of the instances in [known] only, leaves
    their [_provider] as it is, and, as long as it finds a provider there,
    does not end in the failure of the branch without provider. *)
Inductive provided {A} (known : list ref) : prog A -> Prop :=
| provided_Ret : forall a, provided known (Ret a)
| provided_Throw : forall e,
    e <> Error "Provider not exist" -> provided known (Throw e)
| provided_OutOfFuel : provided known OutOfFuel
| provided_PostIncrement : forall k,
    (forall n, provided known (k n)) -> provided known (PostIncrement k)
| provided_Getenv : forall k,
    (forall v, provided known (k v)) -> provided known (Getenv k)
| provided_Warn : forall m a k,
    provided known k -> provided known (Warn m a k)
| provided_Load : forall this k,
    In this known ->
    (forall i, _provider i <> None -> provided known (k i)) ->
    provided known (Load this k)
| provided_Store : forall this f k,
    (forall i, _provider (f i) = _provider i) ->
    provided known k -> provided known (Store this f k)
| provided_New : forall i k,
    (forall r, provided known (k r)) -> provided known (New i k)
| provided_Request : forall p r k,
    (forall s, provided known (k s)) -> provided known (Request p r k)
| provided_GetAccount : forall p k,
    (forall s, provided known (k s)) -> provided known (GetAccount p k)
| provided_On : forall p m l k,
    (forall s, provided known (k s)) -> provided known (On p m l k)
| provided_Sleep : forall ms k,
    provided known k -> provided known (Sleep ms k)
| provided_Await : forall k,
    provided known k -> provided known (Await k).

End Provider.

Arguments getAccount {Ext} w.
Arguments request {Ext} w.
Arguments on {Ext} w.
Arguments _provider {Ext} i.
Arguments _network {Ext} i.
Arguments _account {Ext} i.
Arguments _pubKeys {Ext} i.
Arguments blank {Ext}.
Arguments set_provider {Ext} p i.
Arguments set_network {Ext} v i.
Arguments set_account {Ext} v i.
Arguments set_pubKeys {Ext} v i.
Arguments nextId {Ext} w.
Arguments NEAR_NO_LOGS {Ext} w.
Arguments ext {Ext} w.
Arguments events {Ext} w.
Arguments heap {Ext} w.
Arguments with_nextId {Ext} n w.
Arguments with_ext {Ext} x w.
Arguments with_event {Ext} e w.
Arguments with_heap {Ext} h w.
Arguments boot {Ext} no_logs x.
Arguments load {Ext} this w.
Arguments update {Ext} this f h.
Arguments Ret {Ext A} a.
Arguments Throw {Ext A} e.
Arguments OutOfFuel {Ext A}.
Arguments PostIncrement {Ext A} k.
Arguments Getenv {Ext A} k.
Arguments Warn {Ext A} message arg k.
Arguments Load {Ext A} this k.
Arguments Store {Ext A} this f k.
Arguments New {Ext A} fields k.
Arguments Request {Ext A} p r k.
Arguments GetAccount {Ext A} p k.
Arguments On {Ext A} p message l k.
Arguments Sleep {Ext A} ms k.
Arguments Await {Ext A} k.
Arguments bind {Ext A B} c f.
Arguments try_catch {Ext A} c handler.
Arguments await {Ext A} c.
Arguments start {Ext A B} c k.
Arguments settle {Ext} s.
Arguments read {Ext} v k.
Arguments run {Ext A} c w.
Arguments advance {Ext A} c w.
Arguments backoff_loop {Ext} budget attempt maxAttempts baseDelay multiplier
  getResult.
Arguments exponentialBackoff {Ext} startWaitTime retryNumber waitBackoff
  getResult.
Arguments on_throw {Ext} method params error.
Arguments attempt {Ext} parseRpcError txStatusString this method params.
Arguments result_of {Ext} response.
Arguments unwrap {Ext} method response.
Arguments sendJsonRpc {Ext} parseRpcError fuel this method params.
Arguments txStatusString {Ext} parseRpcError fuel this txHash accountId.
Arguments status {Ext} parseRpcError fuel this.
Arguments init {Ext} parseRpcError fuel this.
Arguments constructor {Ext} parseRpcError fuel provider.
Arguments updateNetwork {Ext} this chainId.
Arguments updateAccount {Ext} this account.
Arguments subscribe {Ext} this message l.
Arguments task_of {Ext} parseRpcError fuel this op.
Arguments constructed {Ext} s.
Arguments pool {Ext} s.
Arguments world {Ext} s.
Arguments replace {A} i a l.
Arguments reachable {Ext} parseRpcError s.
Arguments stamps_from {Ext A} held c.
Arguments stamps {Ext A} c.
Arguments extends_from {Ext} n ids w.
Arguments extends {Ext} w w'.
Arguments pending {Ext} n ids held w.
Arguments bound {Ext} known w.
Arguments provided {Ext A} known c.

(** ** The vocabulary of the specification *)

(** [v.k] where the read cannot fail. *)
Definition field (v : Js.value) (k : string) : Js.value :=
  match Js.get v k with
  | Some x => x
  | None => Js.Undefined
  end.

(** The string of a value that has one. *)
Definition printed (v : Js.value) : string :=
  match Js.toString v with
  | Some s => s
  | None => ""
  end.

(** The [code] and the [message] of an error payload can be turned into
    strings: neither is, or as an array holds, an object with a property
    [toString] of its own. *)
Definition prints (error : Js.value) : bool :=
  match Js.toString (field error "code"),
        Js.toString (field error "message") with
  | Some _, Some _ => true
  | _, _ => false
  end.

(** The message [`[${error.code}] ${error.message}: ${error.data}`] of a
    payload that [prints]. *)
Definition composed_message (error : Js.value) : string :=
  "[" ++ printed (field error "code") ++ "] "
      ++ printed (field error "message") ++ ": "
      ++ printed (field error "data").

(** The three conditions under which an error counts as a timeout. *)
Definition timeout_condition (error : Js.value) : bool :=
  Js.is_string "Timeout" (field error "data")
  || Js.includes (composed_message error) "Timeout error"
  || Js.includes (composed_message error) "query has timed out".

(** An error payload whose [data] is in the old format. *)
Definition legacy_data (data : Js.value) : option (string * string) :=
  match data with
  | Js.Obj fs =>
      match Js.assoc "error_message" fs, Js.assoc "error_type" fs with
      | Some (Js.Str m), Some (Js.Str t) => Some (m, t)
      | _, _ => None
      end
  | _ => None
  end.

(** A reply that makes the attempt that receives it return [null]: it
    carries an error that is thrown with the type ['TimeoutError']. *)
Definition timeout_reply (parseRpcError : Js.value -> Js.value)
    (reply : Js.value) : Prop :=
  Js.isArray reply = false /\
  exists error,
    Js.get reply "error" = Some error /\
    Js.truthy error = true /\
    exn_type (rpc_error parseRpcError error) = Some (Js.Str "TimeoutError").

(** The transport answers the next [n] requests of a call of
    [sendJsonRpc(method, params)] with such replies, and is in the state
    [x_end] after the last of them: the first request carries the id [id]
    and finds the transport in the state [x], each further one the next id
    and the state the reply before has left.  What the transport does after
    these [n] requests, or for other requests, is open. *)
Fixpoint times_out {Ext} (parseRpcError : Js.value -> Js.value) (n : nat)
    (p : WalletProvider Ext) (method : string) (params : Js.value)
    (id : Z) (x x_end : Ext) : Prop :=
  match n with
  | O => x_end = x
  | S n' =>
      exists reply x',
        request p (Request.make "2.0" id method params) x
          = (Resolved reply, x') /\
        timeout_reply parseRpcError reply /\
        times_out parseRpcError n' p method params (incremented id) x' x_end
  end.

(** The world right after the request [r] of an attempt was handed to the
    transport, which moved to [x]. *)
Definition after_request {Ext} (w : World Ext) (r : Request.t) (x : Ext)
  : World Ext :=
  with_ext x (with_event (Requested r)
                (with_nextId (incremented (nextId w)) w)).

(** The request an attempt of [sendJsonRpc(method, params)] makes in the
    world [w]. *)
Definition request_of {Ext} (w : World Ext) (method : string)
    (params : Js.value) : Request.t :=
  Request.make "2.0" (nextId w) method params.


(** ** Transports to try the provider on *)

(** A transport that gives the answers of a script one after the other, and
    [undefined] once the script is used up. *)
Definition scripted : WalletProvider (list settled) :=
  {| getAccount := fun x => (Resolved (Js.Str "alice.testnet"), x);
     request := fun _ x =>
                  match x with
                  | [] => (Resolved Js.Undefined, [])
                  | s :: rest => (s, rest)
                  end;
     on := fun _ _ x => (Resolved Js.Undefined, x) |}.

(** A transport with one answer to everything. *)
Definition constantly (reply : Js.value) : WalletProvider unit :=
  {| getAccount := fun x => (Resolved (Js.Str "alice.testnet"), x);
     request := fun _ x => (Resolved reply, x);
     on := fun _ _ x => (Resolved Js.Undefined, x) |}.

(** A parser that wraps what it is given. *)
Definition wrapping_parser (data : Js.value) : Js.value :=
  Js.Obj [("type", Js.Str "HandlerError"); ("data", data)].

(** The steps of a process, as functions of its state: an instance is
    constructed, a method is called on an instance, the call at the place
    [i] of the pool is resumed. *)
Definition construct {Ext} (parseRpcError : Js.value -> Js.value)
    (fuel : nat) (provider : option (WalletProvider Ext)) (s : System Ext)
  : System Ext :=
  match run (constructor parseRpcError fuel provider) (world s) with
  | Some (Normal (this, task), w) =>
      {| constructed := this :: constructed s;
         pool := pool s ++ [task]; world := w |}
  | Some (Abrupt _, w) =>
      {| constructed := constructed s; pool := pool s; world := w |}
  | None => s
  end.

Definition call {Ext} (parseRpcError : Js.value -> Js.value)
    (fuel : nat) (this : ref) (op : operation) (s : System Ext)
  : System Ext :=
  if existsb (Nat.eqb this) (constructed s)
  then {| constructed := constructed s;
          pool := pool s ++ [task_of parseRpcError fuel this op];
          world := world s |}
  else s.

Definition resume {Ext} (i : nat) (s : System Ext) : System Ext :=
  match nth_error (pool s) i with
  | Some t =>
      {| constructed := constructed s;
         pool := replace i (fst (advance t (world s))) (pool s);
         world := snd (advance t (world s)) |}
  | None => s
  end.

(** A process from its start: an instance is constructed on a scripted
    transport, and the [init] it has started is resumed once. *)
Definition demo_script : list settled :=
  [Resolved (Js.Obj [("chain_id", Js.Str "testnet")])].

Definition demo_system : System (list settled) :=
  resume 0
    (construct wrapping_parser 1 (Some scripted)
       {| constructed := []; pool := []; world := boot None demo_script |}).

(** The reply of a node that has timed out. *)
Definition timeout_error : Js.value :=
  Js.Obj [("error", Js.Obj [("code", Js.Num (-32000));
                            ("message", Js.Str "timeout");
                            ("data", Js.Str "Timeout")])].

(** A busier process: two instances on one wallet, each with its [init]
    started; a call on each of them, in flight at the same time; the call on
    the first times out and is resumed up to the request of its second
    attempt. *)
Definition busy_script : list settled :=
  [Resolved (Js.Obj [("chain_id", Js.Str "testnet")]);
   Resolved (Js.Obj [("chain_id", Js.Str "testnet")]);
   Resolved timeout_error;
   Resolved (Js.Obj [("height", Js.Num 7)]);
   Resolved (Js.Obj [("gas_price", Js.Str "100")])].

Definition busy_system : System (list settled) :=
  resume 2 (resume 2 (resume 2
    (resume 3
       (resume 2
          (call wrapping_parser 1 1%nat
             (OpSendJsonRpc "block" (Js.Obj [("finality", Js.Str "final")]))
             (call wrapping_parser 1 0%nat
                (OpSendJsonRpc "gas_price" (Js.Arr [Js.Null]))
                (construct wrapping_parser 1 (Some scripted)
                   (construct wrapping_parser 1 (Some scripted)
                      {| constructed := []; pool := [];
                         world := boot None busy_script |})))))))).

(** The scenario of the specification: twelve timeouts, and a result that
    is never asked for. *)
Definition twelve_timeouts : list settled :=
  (List.repeat (Resolved timeout_error) 12
     ++ [Resolved (Js.Obj [("result", Js.Obj [])])])%list.

(** A world with one instance, bound to [p] and to the account
    [alice.testnet]. *)
Definition one_instance {Ext} (p : WalletProvider Ext) (x : Ext)
  : World Ext :=
  {| nextId := FIRST_ID; NEAR_NO_LOGS := None; ext := x; events := [];
     heap := [ {| _provider := Some p; _network := Js.Str "testnet";
                  _account := Js.Str "alice.testnet";
                  _pubKeys := Js.Arr [] |} ] |}.

(** ** The public methods around [sendJsonRpc] *)

(** [a || b]. *)
Definition or_else (a b : Js.value) : Js.value :=
  if Js.truthy a then a else b.

Fixpoint indexed {A} (f : A -> Js.value) (i : nat) (l : list A)
  : list (string * Js.value) :=
  match l with
  | [] => []
  | x :: rest => (Js.string_of_Z (Z.of_nat i), f x) :: indexed f (S i) rest
  end.

(** The own enumerable properties of a value, the ones a rest pattern
    [{ ...rest }] collects: the fields of an object, the elements of an
    array and the characters of a string under their indices, none for a
    number or a boolean; [None] is the TypeError of destructuring
    [undefined] or [null]. *)
Definition own_properties (v : Js.value) : option (list (string * Js.value)) :=
  match v with
  | Js.Undefined | Js.Null => None
  | Js.Obj fs => Some fs
  | Js.Arr items => Some (indexed (fun x => x) 0 items)
  | Js.Str s =>
      Some (indexed (fun c => Js.Str (String c "")) 0
              (list_ascii_of_string s))
  | Js.Bool _ | Js.Num _ => Some []
  end.

(** The properties that are left when the keys [ks] are taken out by a
    pattern [{ k1, k2, ...rest }]. *)
Fixpoint without (ks : list string) (fs : list (string * Js.value))
  : list (string * Js.value) :=
  match fs with
  | [] => []
  | (k, v) :: rest =>
      if existsb (String.eqb k) ks then without ks rest
      else (k, v) :: without ks rest
  end.

(** [{ ...fs, k: v }]: the value of [k] is replaced where [fs] has the key,
    and the property is added at the end where it has not. *)
Fixpoint define (k : string) (v : Js.value) (fs : list (string * Js.value))
  : list (string * Js.value) :=
  match fs with
  | [] => [(k, v)]
  | (k', v') :: rest =>
      if String.eqb k k' then (k, v) :: rest
      else (k', v') :: define k v rest
  end.

(** The parameters [query] sends for a single argument:
    [{ ...otherParams, block_id: block_id || blockId }] with
    [{ block_id, blockId, ...otherParams } = args[0]]. *)
Definition query_params (arg : Js.value) : option Js.value :=
  match own_properties arg with
  | None => None
  | Some props =>
      let block_id := field arg "block_id" in
      let blockId := field arg "blockId" in
      let otherParams := without ["block_id"; "blockId"] props in
      Some (Js.Obj (define "block_id" (or_else block_id blockId) otherParams))
  end.

(** The parameters [experimental_protocolConfig] sends:
    [{ ...otherParams, block_id: blockId }] with
    [{ blockId, ...otherParams } = blockReference]. *)
Definition protocol_config_params (blockReference : Js.value)
  : option Js.value :=
  match own_properties blockReference with
  | None => None
  | Some props =>
      let blockId := field blockReference "blockId" in
      let otherParams := without ["blockId"] props in
      Some (Js.Obj (define "block_id" blockId otherParams))
  end.

Section Methods.

Variable Ext : Type.
Variable parseRpcError : Js.value -> Js.value.

(** [JSON.stringify(value, null, 2)], a built-in of the language. *)
Variable stringify : Js.value -> string.

(** The getters [network], [account], [pubKeys] and [isWalletProvider]. *)
Definition network (this : ref) : prog Ext Js.value :=
  Load this (fun fields => Ret (_network fields)).

Definition account (this : ref) : prog Ext Js.value :=
  Load this (fun fields => Ret (_account fields)).

Definition pubKeys (this : ref) : prog Ext Js.value :=
  Load this (fun fields => Ret (_pubKeys fields)).

Definition isWalletProvider (this : ref) : prog Ext Js.value :=
  Ret (Js.Bool true).

(** The call of [sendJsonRpc] that [query(...args)] makes. *)
Definition query_call (fuel : nat) (this : ref) (args : list Js.value)
  : prog Ext Js.value :=
  match args with
  | [arg] =>
      match query_params arg with
      | None => Throw TypeError
      | Some params => await (sendJsonRpc parseRpcError fuel this "query" params)
      end
  | _ =>
      let path := nth 0 args Js.Undefined in
      let data := nth 1 args Js.Undefined in
      await (sendJsonRpc parseRpcError fuel this "query"
               (Js.Arr [path; data]))
  end.

(** The check [query] makes of the result:
    [if (result && result.error) throw new TypedError(...)]. *)
Definition query_check (result : Js.value) : prog Ext Js.value :=
  if Js.truthy result then
    bind (read result "error") (fun error =>
    if Js.truthy error then
      match Js.toString error with
      | Some text =>
          bind (read error "name") (fun name =>
          Throw (TypedError
                   ("Querying failed: " ++ text ++ "."
                      ++ String (ascii_of_nat 10) (stringify result))
                   name))
      | None => Throw TypeError
      end
    else Ret result)
  else Ret result.

(** [query(...args)]. *)
Definition query (fuel : nat) (this : ref) (args : list Js.value)
  : prog Ext Js.value :=
  bind (query_call fuel this args) query_check.

(** [block(blockQuery)]. *)
Definition block (fuel : nat) (this : ref) (blockQuery : Js.value)
  : prog Ext Js.value :=
  bind (read blockQuery "finality") (fun finality =>
  bind (read blockQuery "blockId") (fun blockId =>
  sendJsonRpc parseRpcError fuel this "block"
    (Js.Obj [("block_id", blockId); ("finality", finality)]))).

(** [blockChanges(blockQuery)]. *)
Definition blockChanges (fuel : nat) (this : ref) (blockQuery : Js.value)
  : prog Ext Js.value :=
  bind (read blockQuery "finality") (fun finality =>
  bind (read blockQuery "blockId") (fun blockId =>
  sendJsonRpc parseRpcError fuel this "EXPERIMENTAL_changes_in_block"
    (Js.Obj [("block_id", blockId); ("finality", finality)]))).

(** [experimental_protocolConfig(blockReference)]. *)
Definition experimental_protocolConfig (fuel : nat) (this : ref)
    (blockReference : Js.value) : prog Ext Js.value :=
  match protocol_config_params blockReference with
  | None => Throw TypeError
  | Some params =>
      await (sendJsonRpc parseRpcError fuel this
               "EXPERIMENTAL_protocol_config" params)
  end.

(** A program that assigns to no field and allocates no instance. *)
Fixpoint reads_only {A} (c : prog Ext A) : Prop :=
  match c with
  | Ret _ | Throw _ | OutOfFuel => True
  | Store _ _ _ | New _ _ => False
  | PostIncrement k => forall n, reads_only (k n)
  | Getenv k => forall v, reads_only (k v)
  | Load _ k => forall i, reads_only (k i)
  | Request _ _ k | GetAccount _ k | On _ _ _ k => forall s, reads_only (k s)
  | Warn _ _ k | Sleep _ k | Await k => reads_only k
  end.

End Methods.

Arguments network {Ext} this.
Arguments account {Ext} this.
Arguments pubKeys {Ext} this.
Arguments isWalletProvider {Ext} this.
Arguments query_call {Ext} parseRpcError fuel this args.
Arguments query_check {Ext} stringify result.
Arguments query {Ext} parseRpcError stringify fuel this args.
Arguments block {Ext} parseRpcError fuel this blockQuery.
Arguments blockChanges {Ext} parseRpcError fuel this blockQuery.
Arguments experimental_protocolConfig {Ext} parseRpcError fuel this
  blockReference.
Arguments reads_only {Ext A} c.

(** A transport that answers every request with an array. *)
Definition always_arrays {Ext} (p : WalletProvider Ext) : Prop :=
  forall r x, exists items x', request p r x = (Resolved (Js.Arr items), x').

(** A transport that only ever answers [["H9k2"]]. *)
Definition echo_hash : WalletProvider unit :=
  {| getAccount := fun x => (Resolved (Js.Str "alice.testnet"), x);
     request := fun _ x => (Resolved (Js.Arr [Js.Str "H9k2"]), x);
     on := fun _ _ x => (Resolved Js.Undefined, x) |}.

(** A transport whose requests are all rejected with [reason]. *)
Definition rejecting (reason : Js.value) : WalletProvider unit :=
  {| getAccount := fun x => (Resolved (Js.Str "alice.testnet"), x);
     request := fun _ x => (Rejected reason, x);
     on := fun _ _ x => (Resolved Js.Undefined, x) |}.

(** A world like [one_instance] with the variable [NEAR_NO_LOGS] set. *)
Definition quiet_instance {Ext} (p : WalletProvider Ext) (x : Ext)
  : World Ext :=
  {| nextId := FIRST_ID; NEAR_NO_LOGS := Some "1"; ext := x; events := [];
     heap := heap (one_instance p x) |}.

(** A world with an instance that has no provider. *)
Definition unbound_instance : World unit :=
  {| nextId := FIRST_ID; NEAR_NO_LOGS := None; ext := tt; events := [];
     heap := [blank] |}.

(** * Properties *)

(** ** Strings *)

Lemma prefix_iff (p s : string) :
  String.prefix p s = true <-> exists rest, s = p ++ rest.
Proof.
  revert s; induction p as [|c p IH]; intros s; simpl.
  - split; [intros _; now exists s | intros _; now destruct s].
  - destruct s as [|d s].
    + split; [discriminate | intros [rest H]; discriminate].
    + simpl. destruct (Ascii.ascii_dec c d) as [->|ne].
      * rewrite IH. split; intros [rest H]; exists rest.
        -- now rewrite H.
        -- now inversion H.
      * split; [discriminate | intros [rest H]; inversion H; congruence].
Qed.

Lemma includes_nil (sub : string) :
  Js.includes "" sub = String.prefix sub "".
Proof. cbn [Js.includes]. now destruct (String.prefix sub ""). Qed.

Lemma includes_cons (c : ascii) (s sub : string) :
  Js.includes (String c s) sub
  = String.prefix sub (String c s) || Js.includes s sub.
Proof.
  cbn [Js.includes]. now destruct (String.prefix sub (String c s)).
Qed.

(** [includes] holds exactly of the strings that have [sub] somewhere
    inside. *)
Lemma includes_iff (s sub : string) :
  Js.includes s sub = true <-> exists pre post, s = pre ++ sub ++ post.
Proof.
  induction s as [|c s IH].
  - rewrite includes_nil, prefix_iff. split.
    + intros [rest H]. now exists "", rest.
    + intros [pre [post H]]. destruct pre; [| discriminate]. now exists post.
  - rewrite includes_cons, Bool.orb_true_iff, prefix_iff, IH. split.
    + intros [[rest H] | [pre [post H]]].
      * now exists "", rest.
      * exists (String c pre), post. simpl. now rewrite H.
    + intros [pre [post H]]. destruct pre as [|d pre]; simpl in H.
      * left. now exists post.
      * right. inversion H. now exists pre, post.
Qed.

(** ** Values *)

Lemma truthy_not_nullish (v : Js.value) :
  Js.truthy v = true -> Js.is_nullish v = false.
Proof. destruct v; simpl; congruence. Qed.

Lemma get_field (v : Js.value) (k : string) :
  Js.is_nullish v = false -> Js.get v k = Some (field v k).
Proof. unfold field; destruct v; simpl; congruence. Qed.

Lemma is_string_iff (lit : string) (v : Js.value) :
  Js.is_string lit v = true <-> v = Js.Str lit.
Proof.
  destruct v; simpl; try (split; congruence).
  rewrite String.eqb_eq. split; congruence.
Qed.

(** ** Classification of node errors *)

Section Classification.

Variable parse : Js.value -> Js.value.

(** What is thrown when [data] is no object: the composed message, with the
    type ['TimeoutError'] under one of the three conditions and with the
    name of the payload otherwise. *)
Lemma rpc_error_scalar (error : Js.value) :
  Js.truthy error = true ->
  Js.typeof (field error "data") <> Js.TObject ->
  prints error = true ->
  rpc_error parse error =
    TypedError (composed_message error)
      (if timeout_condition error then Js.Str "TimeoutError"
       else field error "name").
Proof.
  intros T D P. apply truthy_not_nullish in T.
  unfold rpc_error, timeout_condition, composed_message, prints, printed
    in *.
  rewrite !(get_field error) by exact T.
  destruct (Js.toString (field error "code")) as [code|];
    [| discriminate].
  destruct (Js.toString (field error "message")) as [message|];
    [| discriminate].
  destruct (field error "data") as [| |[|]|n|d|items|fs];
    try (exfalso; apply D; reflexivity);
    cbn [Js.typeof Js.toString];
    match goal with |- context [if ?c then _ else _] => destruct c end;
    reflexivity.
Qed.

(** A scalar [data] always has a string. *)
Lemma scalar_prints (data : Js.value) :
  Js.typeof data <> Js.TObject -> Js.toString data <> None.
Proof.
  destruct data as [| |[|]|n|d|items|fs]; cbn; intros D; try discriminate;
    exfalso; apply D; reflexivity.
Qed.

(** Where the [code] or the [message] has no string, the template literal
    raises a TypeError, and this is what the branch throws. *)
Lemma rpc_error_unprintable (error : Js.value) :
  Js.truthy error = true ->
  Js.typeof (field error "data") <> Js.TObject ->
  prints error = false ->
  rpc_error parse error = TypeError.
Proof.
  intros T D P. apply truthy_not_nullish in T.
  unfold rpc_error, prints in *.
  rewrite !(get_field error) by exact T.
  destruct (Js.typeof (field error "data")) eqn:Ty; try congruence;
    destruct (Js.toString (field error "code")) as [code|];
    try reflexivity;
    destruct (Js.toString (field error "message")) as [message|];
    try reflexivity; discriminate.
Qed.

Lemma rpc_error_legacy (error data : Js.value) (m t : string) :
  Js.get error "data" = Some data ->
  legacy_data data = Some (m, t) ->
  rpc_error parse error = TypedError m (Js.Str t).
Proof.
  intros G L. unfold rpc_error. rewrite G.
  destruct data as [| | | | |l|fs]; simpl in L; try discriminate.
  simpl.
  destruct (Js.assoc "error_message" fs) as [[| | | |em| |]|]; try discriminate.
  destruct (Js.assoc "error_type" fs) as [[| | | |et| |]|]; try discriminate.
  now inversion L.
Qed.

Lemma rpc_error_structured (error data : Js.value) :
  Js.get error "data" = Some data ->
  legacy_data data = None ->
  Js.typeof data = Js.TObject ->
  data <> Js.Null ->
  rpc_error parse error = Parsed (parse data).
Proof.
  intros G L Ty N. unfold rpc_error. rewrite G, Ty.
  destruct data as [| | | | |l|fs]; simpl in Ty; try discriminate;
    try congruence.
  - reflexivity.
  - simpl in *.
    destruct (Js.assoc "error_message" fs) as [[| | | |em| |]|];
      try reflexivity.
    destruct (Js.assoc "error_type" fs) as [[| | | |et| |]|];
      try reflexivity; discriminate.
Qed.

(** C3, as amended.  For every error payload whose [data] is absent or a
    scalar other than [null], whose [code] and [message] can be turned into
    strings (neither is, or holds, an object with a property [toString] of
    its own) and whose numbers are safe integers: under one of the three
    timeout conditions the error thrown is the composed message with the
    type ['TimeoutError']; under none of them it is the composed message
    with the name of the payload as its type; so a ['TimeoutError'] with the
    composed message is thrown exactly when one of the conditions holds or
    the name of the payload is ['TimeoutError'].  (Where the [code] or the
    [message] has no string, a TypeError is thrown instead:
    [rpc_error_unprintable].) *)
Theorem timeout_classification (error : Js.value) :
  Js.truthy error = true ->
  Js.typeof (field error "data") <> Js.TObject ->
  prints error = true ->
  Js.exact error = true ->
  (timeout_condition error = true ->
   rpc_error parse error =
     TypedError (composed_message error) (Js.Str "TimeoutError")) /\
  (timeout_condition error = false ->
   rpc_error parse error =
     TypedError (composed_message error) (field error "name")) /\
  (rpc_error parse error =
     TypedError (composed_message error) (Js.Str "TimeoutError")
   <-> timeout_condition error = true
       \/ field error "name" = Js.Str "TimeoutError").
Proof.
  intros T D P _. rewrite (rpc_error_scalar error T D P).
  destruct (timeout_condition error).
  - repeat split; auto; discriminate.
  - repeat split; try discriminate; auto.
    + intros H. right. now inversion H.
    + intros [H | H]; [discriminate | now rewrite H].
Qed.

(** C4.  For every error payload whose [data] is an object with string
    fields [error_message] and [error_type], the error thrown is the
    [TypedError] of exactly these two values, and not what the structured
    parser makes of [data]; every other [data] that is an object or an array
    goes to the structured parser, whose value is thrown. *)
Theorem legacy_or_structured (error data : Js.value) :
  Js.truthy error = true ->
  Js.get error "data" = Some data ->
  (forall m t,
      legacy_data data = Some (m, t) ->
      rpc_error parse error = TypedError m (Js.Str t) /\
      rpc_error parse error <> Parsed (parse data)) /\
  (legacy_data data = None ->
   (exists fs, data = Js.Obj fs) \/ (exists items, data = Js.Arr items) ->
   rpc_error parse error = Parsed (parse data)).
Proof.
  intros _ G. split.
  - intros m t L. rewrite (rpc_error_legacy error data m t G L).
    split; [reflexivity | discriminate].
  - intros L [[fs ->] | [items ->]];
      apply rpc_error_structured; auto; discriminate.
Qed.

(** C5.  An error payload whose [data] is [null] is not thrown as a generic
    error with the composed message: [typeof null] is ['object'], the read
    of [error_message] on [null] raises a TypeError, and [sendJsonRpc] ends
    with that TypeError after one request. *)
Theorem null_data_raises_TypeError :
  let error := Js.Obj [("code", Js.Num (-32000));
                       ("message", Js.Str "Server error");
                       ("data", Js.Null)] in
  let w := one_instance (constantly (Js.Obj [("error", error)])) tt in
  timeout_condition error = false /\
  composed_message error = "[-32000] Server error: null" /\
  rpc_error parse error = TypeError /\
  exists w',
    run (sendJsonRpc parse 1 0%nat "query" (Js.Arr [])) w
      = Some (Abrupt TypeError, w') /\
    count_requests (events w') = 1%nat.
Proof.
  repeat split; try reflexivity.
  eexists; split; reflexivity.
Qed.

End Classification.

(** C3 as the specification states it fails: a payload with the name
    ['TimeoutError'] that meets none of the three conditions is thrown as a
    ['TimeoutError'] with the composed message all the same. *)
Lemma timeout_without_condition :
  let error := Js.Obj [("code", Js.Num 1); ("message", Js.Str "m");
                       ("data", Js.Str "x");
                       ("name", Js.Str "TimeoutError")] in
  Js.typeof (field error "data") <> Js.TObject /\
  timeout_condition error = false /\
  rpc_error wrapping_parser error =
    TypedError (composed_message error) (Js.Str "TimeoutError").
Proof.
  repeat split; try reflexivity. discriminate.
Qed.

(** The composed message needs strings for the [code] and the [message]: a
    payload whose [code] is an object with a property [toString] of its own
    meets the first timeout condition and is thrown as a TypeError, with no
    message at all. *)
Lemma unprintable_code_raises_TypeError :
  let error := Js.Obj [("code", Js.Obj [("toString", Js.Num 1)]);
                       ("message", Js.Str "m");
                       ("data", Js.Str "Timeout")] in
  Js.typeof (field error "data") <> Js.TObject /\
  timeout_condition error = true /\
  prints error = false /\
  rpc_error wrapping_parser error = TypeError.
Proof.
  repeat split; try reflexivity. discriminate.
Qed.

Lemma timeout_classification_witness :
  let error := Js.Obj [("code", Js.Num (-32000));
                       ("message", Js.Str "timeout");
                       ("data", Js.Str "Timeout")] in
  Js.truthy error = true /\
  Js.typeof (field error "data") <> Js.TObject /\
  prints error = true /\
  Js.exact error = true /\
  timeout_condition error = true /\
  rpc_error wrapping_parser error =
    TypedError "[-32000] timeout: Timeout" (Js.Str "TimeoutError").
Proof.
  split; [reflexivity | split; [discriminate |]].
  split; [reflexivity | split; [reflexivity | split; [reflexivity |]]].
  refine (proj1 (timeout_classification wrapping_parser
           (Js.Obj [("code", Js.Num (-32000)); ("message", Js.Str "timeout");
                    ("data", Js.Str "Timeout")]) _ _ _ _) _).
  - reflexivity.
  - discriminate.
  - reflexivity.
  - reflexivity.
  - reflexivity.
Defined.

Lemma legacy_or_structured_witness :
  let data := Js.Obj [("error_message", Js.Str "busy");
                      ("error_type", Js.Str "HandlerError")] in
  let error := Js.Obj [("code", Js.Num (-32000));
                       ("message", Js.Str "Server error");
                       ("data", data)] in
  rpc_error wrapping_parser error = TypedError "busy" (Js.Str "HandlerError")
  /\ rpc_error wrapping_parser error <> Parsed (wrapping_parser data).
Proof.
  apply (legacy_or_structured wrapping_parser
           (Js.Obj [("code", Js.Num (-32000));
                    ("message", Js.Str "Server error");
                    ("data", Js.Obj [("error_message", Js.Str "busy");
                                     ("error_type", Js.Str "HandlerError")])])
           (Js.Obj [("error_message", Js.Str "busy");
                    ("error_type", Js.Str "HandlerError")]));
    reflexivity.
Defined.

(** ** One call run on its own *)

Section Sequential.

Variable Ext : Type.
Variable parse : Js.value -> Js.value.

Lemma run_bind {A B} (c : prog Ext A) (f : A -> prog Ext B) w :
  run (bind c f) w =
  match run c w with
  | None => None
  | Some (Normal a, w') => run (f a) w'
  | Some (Abrupt e, w') => Some (Abrupt e, w')
  end.
Proof.
  revert w; induction c; intros w; simpl; auto.
  - destruct (request p r (ext w)); auto.
  - destruct (getAccount p (ext w)); auto.
  - destruct (on p message l (ext w)); auto.
Qed.

Lemma run_try_catch {A} (c : prog Ext A) (h : exn -> prog Ext A) w :
  run (try_catch c h) w =
  match run c w with
  | None => None
  | Some (Normal a, w') => Some (Normal a, w')
  | Some (Abrupt e, w') => run (h e) w'
  end.
Proof.
  revert w; induction c; intros w; simpl; auto.
  - destruct (request p r (ext w)); auto.
  - destruct (getAccount p (ext w)); auto.
  - destruct (on p message l (ext w)); auto.
Qed.

Lemma run_await {A} (c : prog Ext A) w : run (await c) w = run c w.
Proof.
  revert w; induction c; intros w; simpl; auto.
  - destruct (request p r (ext w)); auto.
  - destruct (getAccount p (ext w)); auto.
  - destruct (on p message l (ext w)); auto.
Qed.

(** A run from start to end goes through the points of suspension. *)
Lemma run_advance {A} (c : prog Ext A) (w : World Ext) :
  run c w = run (fst (advance c w)) (snd (advance c w)).
Proof.
  revert w; induction c; intros w; simpl; auto.
  - destruct (request p r (ext w)); auto.
  - destruct (getAccount p (ext w)); auto.
  - destruct (on p message l (ext w)); auto.
Qed.

Lemma sendJsonRpc_unfold fuel this method params :
  sendJsonRpc (Ext:=Ext) parse (S fuel) this method params =
  bind (await (exponentialBackoff REQUEST_RETRY_WAIT REQUEST_RETRY_NUMBER
                 REQUEST_RETRY_WAIT_BACKOFF
                 (attempt parse (txStatusString parse fuel this) this method params)))
       (unwrap method).
Proof. reflexivity. Qed.

Lemma backoff_loop_S budget a m base mult (g : prog Ext Js.value) :
  backoff_loop (S budget) a m base mult g =
  bind (await g) (fun result =>
    match result with
    | Js.Null =>
        if shouldRetry (S a) m
        then Sleep (delayFor a base mult)
               (backoff_loop budget (S a) m base mult g)
        else Ret Exhausted
    | v => Ret (Settled v)
    end).
Proof. reflexivity. Qed.

Lemma run_backoff_null budget a m base mult (g : prog Ext Js.value)
      (w : World Ext) w1 :
  run g w = Some (Normal Js.Null, w1) ->
  shouldRetry (S a) m = true ->
  run (backoff_loop (S budget) a m base mult g) w
    = run (backoff_loop budget (S a) m base mult g)
          (with_event (Slept (delayFor a base mult)) w1).
Proof.
  intros G R. rewrite backoff_loop_S, run_bind, run_await, G, R.
  reflexivity.
Qed.

Lemma run_backoff_settled budget a m base mult (g : prog Ext Js.value)
      (w : World Ext) v w1 :
  run g w = Some (Normal v, w1) ->
  v <> Js.Null ->
  run (backoff_loop (S budget) a m base mult g) w
    = Some (Normal (Settled v), w1).
Proof.
  intros G N. rewrite backoff_loop_S, run_bind, run_await, G.
  destruct v; try reflexivity. congruence.
Qed.

Lemma run_backoff_thrown budget a m base mult (g : prog Ext Js.value)
      (w : World Ext) e w1 :
  run g w = Some (Abrupt e, w1) ->
  run (backoff_loop (S budget) a m base mult g) w = Some (Abrupt e, w1).
Proof.
  intros G. now rewrite backoff_loop_S, run_bind, run_await, G.
Qed.

Lemma run_sendJsonRpc_settled fuel this method params (w : World Ext) v w1 :
  run (attempt parse (txStatusString parse fuel this) this method params) w
    = Some (Normal v, w1) ->
  v <> Js.Null ->
  run (sendJsonRpc parse (S fuel) this method params) w
    = run (unwrap method (Settled v)) w1.
Proof.
  intros G N. rewrite sendJsonRpc_unfold, run_bind, run_await.
  unfold exponentialBackoff, REQUEST_RETRY_NUMBER.
  now rewrite (run_backoff_settled _ _ _ _ _ _ _ _ _ G N).
Qed.

Lemma run_sendJsonRpc_thrown fuel this method params (w : World Ext) e w1 :
  run (attempt parse (txStatusString parse fuel this) this method params) w
    = Some (Abrupt e, w1) ->
  run (sendJsonRpc parse (S fuel) this method params) w
    = Some (Abrupt e, w1).
Proof.
  intros G. rewrite sendJsonRpc_unfold, run_bind, run_await.
  unfold exponentialBackoff, REQUEST_RETRY_NUMBER.
  now rewrite (run_backoff_thrown _ _ _ _ _ _ _ _ _ G).
Qed.

(** An attempt that gets a reply that is no array. *)
Lemma run_attempt_reply tx this method params (w : World Ext)
      p reply x error :
  _provider (load this w) = Some p ->
  request p (request_of w method params) (ext w) = (Resolved reply, x) ->
  Js.isArray reply = false ->
  Js.get reply "error" = Some error ->
  run (attempt parse tx this method params) w =
    if Js.truthy error
    then run (on_throw method params (rpc_error parse error))
             (after_request w (request_of w method params) x)
    else Some (Normal (Js.Obj [("result", reply)]),
               after_request w (request_of w method params) x).
Proof.
  intros Hp Hr Ha He. unfold attempt. cbn [try_catch run]. rewrite Hp.
  cbn [try_catch bind run]. unfold request_of in Hr.
  cbn [nextId with_nextId ext]. rewrite Hr.
  cbn [settle try_catch bind run]. rewrite Ha. unfold read. rewrite He.
  cbn [bind]. now destruct (Js.truthy error).
Qed.

(** The [catch] clause rethrows what is not of the type ['TimeoutError']
    and turns what is into [null]. *)
Lemma run_on_throw_other method params e type (w : World Ext) :
  exn_type e = Some type ->
  Js.is_string "TimeoutError" type = false ->
  run (on_throw method params e) w = Some (Abrupt e, w).
Proof. intros T N. unfold on_throw. now rewrite T, N. Qed.

Lemma run_on_throw_timeout method params e (w : World Ext) :
  exn_type e = Some (Js.Str "TimeoutError") ->
  exists w',
    run (on_throw method params e) w = Some (Normal Js.Null, w') /\
    nextId w' = nextId w /\ ext w' = ext w /\ heap w' = heap w /\
    count_requests (events w') = count_requests (events w).
Proof.
  intros T. unfold on_throw. rewrite T. cbn.
  destruct (NEAR_NO_LOGS w) as [[|c s]|]; eexists; repeat split.
Qed.

(** A reply that is no array and has no truthy [error] is the result of
    the call, as it is, after one request. *)
Lemma sendJsonRpc_success fuel this method params (w : World Ext)
      p reply x error :
  _provider (load this w) = Some p ->
  request p (request_of w method params) (ext w) = (Resolved reply, x) ->
  Js.isArray reply = false ->
  Js.get reply "error" = Some error ->
  Js.truthy error = false ->
  run (sendJsonRpc parse (S fuel) this method params) w
    = Some (Normal reply, after_request w (request_of w method params) x).
Proof.
  intros Hp Hr Ha He Ht.
  pose proof (run_attempt_reply (txStatusString parse fuel this) this method params w
                p reply x error Hp Hr Ha He) as G.
  rewrite Ht in G.
  rewrite (run_sendJsonRpc_settled _ _ _ _ _ _ _ G) by discriminate.
  cbn. destruct reply; simpl in *; try discriminate; reflexivity.
Qed.

(** A reply with a truthy [error] that is thrown with a type other than
    ['TimeoutError'] ends the call with that error after one request. *)
Lemma sendJsonRpc_fails_fast fuel this method params (w : World Ext)
      p reply x error type :
  _provider (load this w) = Some p ->
  request p (request_of w method params) (ext w) = (Resolved reply, x) ->
  Js.isArray reply = false ->
  Js.get reply "error" = Some error ->
  Js.truthy error = true ->
  exn_type (rpc_error parse error) = Some type ->
  Js.is_string "TimeoutError" type = false ->
  run (sendJsonRpc parse (S fuel) this method params) w
    = Some (Abrupt (rpc_error parse error),
            after_request w (request_of w method params) x).
Proof.
  intros Hp Hr Ha He Ht Hty Hn.
  pose proof (run_attempt_reply (txStatusString parse fuel this) this method params w
                p reply x error Hp Hr Ha He) as G.
  rewrite Ht, (run_on_throw_other _ _ _ _ _ Hty Hn) in G.
  now apply run_sendJsonRpc_thrown.
Qed.

(** C1, as amended.  For every transport reply that is a non-array object
    without an [error] field, [sendJsonRpc] returns the reply itself, whole,
    and not the value of its [result] field; it does so after one request
    and without a wait. *)
Theorem reply_is_the_result fuel this method params (w : World Ext) p fs x :
  _provider (load this w) = Some p ->
  request p (request_of w method params) (ext w)
    = (Resolved (Js.Obj fs), x) ->
  Js.assoc "error" fs = None ->
  let w' := after_request w (request_of w method params) x in
  run (sendJsonRpc parse (S fuel) this method params) w
    = Some (Normal (Js.Obj fs), w') /\
  events w' = Requested (request_of w method params) :: events w /\
  count_sleeps (events w') = count_sleeps (events w).
Proof.
  intros Hp Hr He w'. repeat split.
  apply (sendJsonRpc_success fuel this method params w p (Js.Obj fs) x
           Js.Undefined); auto.
  simpl. now rewrite He.
Qed.

(** C6, as amended.  Whether a node error ends the call is decided by the
    type it is thrown with, whatever the branch that classified it: thrown
    with a type other than ['TimeoutError'] it ends the call at once, after
    one request and without a wait or a second attempt; thrown with the type
    ['TimeoutError'] it makes the attempt yield [null], and the call goes on
    with a wait and the eleven attempts that are left. *)
Theorem retry_is_decided_by_type fuel this method params (w : World Ext)
        p reply x error type :
  _provider (load this w) = Some p ->
  request p (request_of w method params) (ext w) = (Resolved reply, x) ->
  Js.isArray reply = false ->
  Js.get reply "error" = Some error ->
  Js.truthy error = true ->
  exn_type (rpc_error parse error) = Some type ->
  (Js.is_string "TimeoutError" type = false ->
   let w' := after_request w (request_of w method params) x in
   run (sendJsonRpc parse (S fuel) this method params) w
     = Some (Abrupt (rpc_error parse error), w') /\
   events w' = Requested (request_of w method params) :: events w) /\
  (Js.is_string "TimeoutError" type = true ->
   exists w1,
     run (attempt parse (txStatusString parse fuel this) this method params) w
       = Some (Normal Js.Null, w1) /\
     run (sendJsonRpc parse (S fuel) this method params) w
       = run (bind (backoff_loop 11 1 12 REQUEST_RETRY_WAIT
                      REQUEST_RETRY_WAIT_BACKOFF
                      (attempt parse (txStatusString parse fuel this)
                         this method params))
                   (unwrap method))
             (with_event
                (Slept (delayFor 0 REQUEST_RETRY_WAIT
                          REQUEST_RETRY_WAIT_BACKOFF)) w1)).
Proof.
  intros Hp Hr Ha He Ht Hty. split.
  - intros Hn w'. split; [| reflexivity].
    now apply (sendJsonRpc_fails_fast fuel this method params w p reply x
                 error type).
  - intros Hy. apply is_string_iff in Hy. subst type.
    pose proof (run_attempt_reply (txStatusString parse fuel this) this
                  method params w p reply x error Hp Hr Ha He) as G.
    rewrite Ht in G.
    destruct (run_on_throw_timeout method params _
                (after_request w (request_of w method params) x) Hty)
      as [w1 [R _]].
    rewrite R in G. exists w1. split; [exact G |].
    rewrite sendJsonRpc_unfold, !run_bind, run_await.
    unfold exponentialBackoff, REQUEST_RETRY_NUMBER.
    rewrite (run_backoff_null 11 0 12 _ _ _ _ _ G) by reflexivity.
    reflexivity.
Qed.

(** C9, as amended.  There is no check of the envelope.  A reply that is an
    object with neither [result] nor [error] is returned as the result of
    the call; a reply with both, the [error] truthy and thrown with a type
    other than ['TimeoutError'], ends the call with that error, as the same
    [error] without a [result] next to it does. *)
Theorem no_envelope_check fuel this method params (w : World Ext) p fs x :
  _provider (load this w) = Some p ->
  request p (request_of w method params) (ext w)
    = (Resolved (Js.Obj fs), x) ->
  let w' := after_request w (request_of w method params) x in
  (Js.assoc "result" fs = None ->
   Js.assoc "error" fs = None ->
   run (sendJsonRpc parse (S fuel) this method params) w
     = Some (Normal (Js.Obj fs), w')) /\
  (forall result error type,
      Js.assoc "result" fs = Some result ->
      Js.assoc "error" fs = Some error ->
      Js.truthy error = true ->
      exn_type (rpc_error parse error) = Some type ->
      Js.is_string "TimeoutError" type = false ->
      run (sendJsonRpc parse (S fuel) this method params) w
        = Some (Abrupt (rpc_error parse error), w')).
Proof.
  intros Hp Hr w'. split.
  - intros _ He.
    apply (sendJsonRpc_success fuel this method params w p (Js.Obj fs) x
             Js.Undefined); auto.
    simpl. now rewrite He.
  - intros result error type _ He Ht Hty Hn.
    apply (sendJsonRpc_fails_fast fuel this method params w p (Js.Obj fs) x
             error type); auto.
    simpl. now rewrite He.
Qed.

(** The result of the lookup an array makes is lost: whenever the lookup
    returns, the call ends with [RetriesExceeded]. *)
Lemma array_reply_loses_the_lookup fuel this method params (w : World Ext)
      p items x txStatus w2 :
  _provider (load this w) = Some p ->
  request p (request_of w method params) (ext w)
    = (Resolved (Js.Arr items), x) ->
  run (txStatusString parse fuel this (Js.first (Js.Arr items))
         (_account (load this w)))
      (after_request w (request_of w method params) x)
    = Some (Normal txStatus, w2) ->
  run (sendJsonRpc parse (S fuel) this method params) w
    = Some (Abrupt (retries_exceeded method), w2).
Proof.
  intros Hp Hr Hl.
  assert (G : run (attempt parse (txStatusString parse fuel this) this
                     method params) w
              = Some (Normal (Js.Obj [("reesult", txStatus)]), w2)).
  { unfold attempt. cbn [try_catch run]. rewrite Hp.
    cbn [try_catch bind run]. unfold request_of in Hr.
    cbn [nextId with_nextId ext]. rewrite Hr.
    cbn [settle try_catch bind run Js.isArray].
    rewrite run_try_catch, run_bind, run_await.
    unfold after_request, request_of in Hl.
    unfold load in *. cbn [heap with_ext with_event with_nextId] in *.
    now rewrite Hl. }
  rewrite (run_sendJsonRpc_settled _ _ _ _ _ _ _ G) by discriminate.
  reflexivity.
Qed.

(** An attempt whose request is answered by a timeout yields [null] after
    that one request. *)
Lemma attempt_times_out tx this method params (w : World Ext) p reply x :
  _provider (load this w) = Some p ->
  request p (request_of w method params) (ext w) = (Resolved reply, x) ->
  timeout_reply parse reply ->
  exists w1,
    run (attempt parse tx this method params) w = Some (Normal Js.Null, w1) /\
    nextId w1 = incremented (nextId w) /\ ext w1 = x /\
    heap w1 = heap w /\
    count_requests (events w1) = S (count_requests (events w)).
Proof.
  intros Hp Hr [Ha [error [He [Ht Hty]]]].
  rewrite (run_attempt_reply tx this method params w p reply x error
             Hp Hr Ha He), Ht.
  destruct (run_on_throw_timeout method params _
              (after_request w (request_of w method params) x) Hty)
    as [w1 [R [Hn [Hx [Hh Hc]]]]].
  exists w1. repeat split; auto.
Qed.

Lemma backoff_gives_up tx this method params p base mult x_end :
  forall budget a m (w : World Ext),
    times_out parse budget p method params (nextId w) (ext w) x_end ->
    _provider (load this w) = Some p ->
    (budget + a = m)%nat ->
    exists w',
      run (backoff_loop budget a m base mult
             (attempt parse tx this method params)) w
        = Some (Normal Exhausted, w') /\
      count_requests (events w')
        = (count_requests (events w) + budget)%nat /\
      ext w' = x_end.
Proof.
  induction budget as [|b IH]; intros a m w Hto Hp Hm.
  - exists w. cbn [times_out] in Hto. repeat split; [lia | now symmetry].
  - cbn [times_out] in Hto. destruct Hto as [reply [x [Hr [Htr Hto]]]].
    destruct (attempt_times_out tx this method params w p reply x Hp Hr Htr)
      as [w1 [R [Hn [Hx [Hh Hc]]]]].
    rewrite backoff_loop_S, run_bind, run_await, R.
    unfold shouldRetry. destruct (S a <? m)%nat eqn:Lt.
    + cbn [run].
      destruct (IH (S a) m (with_event
                              (Slept (delayFor a base mult)) w1))
        as [w' [R' [Hc' Hx']]].
      * cbn [with_event nextId ext]. now rewrite Hn, Hx.
      * unfold load in *. cbn [with_event heap]. now rewrite Hh.
      * lia.
      * exists w'. split; [exact R' |]. split; [| exact Hx'].
        rewrite Hc'. cbn [with_event events count_requests]. lia.
    + apply Nat.ltb_ge in Lt. assert (b = 0)%nat as -> by lia.
      cbn [times_out] in Hto.
      exists w1. split; [reflexivity |]. split; [lia | congruence].
Qed.

(** C7.  When the transport answers the twelve requests of a call of
    [sendJsonRpc], one after the other, with errors that are thrown as
    timeouts, the call ends, and it ends after exactly these 12 requests
    with the [RetriesExceeded] error that names the method and the number
    12, whatever the transport would answer to a further request: it is
    left in the state in which the twelfth reply has left it. *)
Theorem gives_up_after_twelve fuel this method params (w : World Ext) p
    x_end :
  times_out parse 12 p method params (nextId w) (ext w) x_end ->
  _provider (load this w) = Some p ->
  exists w',
    run (sendJsonRpc parse (S fuel) this method params) w
      = Some (Abrupt (TypedError
                        ("Exceeded 12 attempts for request to "
                           ++ method ++ ".")
                        (Js.Str "RetriesExceeded")), w') /\
    count_requests (events w') = (count_requests (events w) + 12)%nat /\
    ext w' = x_end.
Proof.
  intros Hto Hp.
  destruct (backoff_gives_up (txStatusString parse fuel this) this method
              params p REQUEST_RETRY_WAIT REQUEST_RETRY_WAIT_BACKOFF x_end
              12%nat 0%nat 12%nat w Hto Hp eq_refl) as [w' [R [Hc Hx]]].
  exists w'. split; [| split; [exact Hc | exact Hx]].
  rewrite sendJsonRpc_unfold, run_bind, run_await.
  unfold exponentialBackoff, REQUEST_RETRY_NUMBER. rewrite R.
  reflexivity.
Qed.

End Sequential.

(** ** The scenarios of the specification *)

(** C1 as the specification states it fails: for the method ["status"] and
    the reply [{result: {chain_id: "testnet"}}] the call returns the reply,
    which is not [{chain_id: "testnet"}]. *)
Lemma status_reply_is_not_unwrapped :
  let inner := Js.Obj [("chain_id", Js.Str "testnet")] in
  let reply := Js.Obj [("result", inner)] in
  exists w',
    run (sendJsonRpc wrapping_parser 1 0%nat "status" (Js.Arr []))
        (one_instance (constantly reply) tt)
      = Some (Normal reply, w') /\
    field reply "result" = inner /\
    reply <> inner.
Proof.
  eexists. split; [reflexivity | split; [reflexivity | discriminate]].
Qed.

Lemma reply_is_the_result_witness :
  let reply := Js.Obj [("result", Js.Obj [("chain_id", Js.Str "testnet")])] in
  let w := one_instance (constantly reply) tt in
  let w' := after_request w (request_of w "status" (Js.Arr [])) tt in
  run (sendJsonRpc wrapping_parser 1 0%nat "status" (Js.Arr [])) w
    = Some (Normal reply, w') /\
  events w' = Requested (request_of w "status" (Js.Arr [])) :: events w /\
  count_sleeps (events w') = count_sleeps (events w).
Proof.
  apply (reply_is_the_result unit wrapping_parser 0%nat 0%nat "status"
           (Js.Arr [])
           (one_instance
              (constantly
                 (Js.Obj [("result", Js.Obj [("chain_id", Js.Str "testnet")])]))
              tt)
           (constantly
              (Js.Obj [("result", Js.Obj [("chain_id", Js.Str "testnet")])]))
           [("result", Js.Obj [("chain_id", Js.Str "testnet")])] tt);
    reflexivity.
Defined.

(** C2.  The transport answers a send with the array [["H9k2"]] and the
    lookup of that hash with a status.  The lookup is made, for the hash and
    the account of the instance, and the attempt returns its result under the
    key [reesult]; the call finds no [result] and ends with
    [RetriesExceeded] instead of returning the status. *)
Theorem array_reply_ends_in_RetriesExceeded :
  let txStatus := Js.Obj [("status", Js.Obj [("SuccessValue", Js.Str "")])] in
  let w := one_instance scripted
             [Resolved (Js.Arr [Js.Str "H9k2"]); Resolved txStatus] in
  let params := Js.Arr [Js.Str "AAAA"] in
  exists w',
    run (attempt wrapping_parser (txStatusString wrapping_parser 1 0%nat)
           0%nat "broadcast_tx_async" params) w
      = Some (Normal (Js.Obj [("reesult", txStatus)]), w') /\
    run (sendJsonRpc wrapping_parser 2 0%nat "broadcast_tx_async" params) w
      = Some (Abrupt (TypedError
                        "Exceeded 12 attempts for request to broadcast_tx_async."
                        (Js.Str "RetriesExceeded")), w') /\
    events w' =
      [Requested (Request.make "2.0" 124 "tx"
                    (Js.Arr [Js.Str "H9k2"; Js.Str "alice.testnet"]));
       Requested (Request.make "2.0" 123 "broadcast_tx_async" params)].
Proof.
  eexists. split; [reflexivity | split; reflexivity].
Qed.

(** C6 as the specification states it fails: an error in the old format,
    classified by its [error_message] and [error_type], whose [error_type]
    is ['TimeoutError'] does not end the call; after a wait a second request
    is made, and its reply is the result. *)
Lemma legacy_timeout_is_retried :
  let data := Js.Obj [("error_message", Js.Str "busy");
                      ("error_type", Js.Str "TimeoutError")] in
  let error := Js.Obj [("code", Js.Num (-32000));
                       ("message", Js.Str "Server error");
                       ("data", data)] in
  let second := Js.Obj [("ok", Js.Bool true)] in
  let w := one_instance scripted
             [Resolved (Js.Obj [("error", error)]); Resolved second] in
  legacy_data data = Some ("busy", "TimeoutError") /\
  rpc_error wrapping_parser error = TypedError "busy" (Js.Str "TimeoutError")
  /\
  exists w',
    run (sendJsonRpc wrapping_parser 1 0%nat "query" (Js.Arr [])) w
      = Some (Normal second, w') /\
    count_requests (events w') = 2%nat /\
    count_sleeps (events w') = 1%nat.
Proof.
  split; [reflexivity | split; [reflexivity |]].
  eexists. split; [reflexivity | split; reflexivity].
Qed.

Lemma retry_is_decided_by_type_witness :
  let error := Js.Obj [("code", Js.Num (-32000));
                       ("message", Js.Str "Server error");
                       ("data", Js.Str "boom");
                       ("name", Js.Str "HANDLER_ERROR")] in
  let reply := Js.Obj [("error", error)] in
  let w := one_instance (constantly reply) tt in
  let w' := after_request w (request_of w "query" (Js.Arr [])) tt in
  run (sendJsonRpc wrapping_parser 1 0%nat "query" (Js.Arr [])) w
    = Some (Abrupt (TypedError "[-32000] Server error: boom"
                      (Js.Str "HANDLER_ERROR")), w') /\
  events w' = Requested (request_of w "query" (Js.Arr [])) :: events w.
Proof.
  refine (proj1 (retry_is_decided_by_type unit wrapping_parser 0%nat 0%nat
                   "query" (Js.Arr [])
                   (one_instance
                      (constantly
                         (Js.Obj [("error",
                            Js.Obj [("code", Js.Num (-32000));
                                    ("message", Js.Str "Server error");
                                    ("data", Js.Str "boom");
                                    ("name", Js.Str "HANDLER_ERROR")])]))
                      tt)
                   (constantly
                      (Js.Obj [("error",
                         Js.Obj [("code", Js.Num (-32000));
                                 ("message", Js.Str "Server error");
                                 ("data", Js.Str "boom");
                                 ("name", Js.Str "HANDLER_ERROR")])]))
                   (Js.Obj [("error",
                      Js.Obj [("code", Js.Num (-32000));
                              ("message", Js.Str "Server error");
                              ("data", Js.Str "boom");
                              ("name", Js.Str "HANDLER_ERROR")])])
                   tt
                   (Js.Obj [("code", Js.Num (-32000));
                            ("message", Js.Str "Server error");
                            ("data", Js.Str "boom");
                            ("name", Js.Str "HANDLER_ERROR")])
                   (Js.Str "HANDLER_ERROR")
                   _ _ _ _ _ _) _);
    reflexivity.
Defined.

(** The scenario of the specification: the transport times out twelve
    times and has a result ready for a thirteenth request, which is never
    made. *)
Lemma gives_up_after_twelve_witness :
  let w := one_instance scripted twelve_timeouts in
  times_out wrapping_parser 12 scripted "status" (Js.Arr [])
    (nextId w) (ext w) [Resolved (Js.Obj [("result", Js.Obj [])])] /\
  exists w',
    run (sendJsonRpc wrapping_parser 1 0%nat "status" (Js.Arr [])) w
      = Some (Abrupt (TypedError
                        "Exceeded 12 attempts for request to status."
                        (Js.Str "RetriesExceeded")), w') /\
    count_requests (events w') = (count_requests (events w) + 12)%nat /\
    ext w' = [Resolved (Js.Obj [("result", Js.Obj [])])].
Proof.
  assert (T : times_out wrapping_parser 12 scripted "status" (Js.Arr [])
                (nextId (one_instance scripted twelve_timeouts))
                (ext (one_instance scripted twelve_timeouts))
                [Resolved (Js.Obj [("result", Js.Obj [])])]).
  { repeat (eexists; eexists;
            split; [reflexivity |];
            split; [split; [reflexivity |]; eexists;
                    split; [reflexivity | split; reflexivity] |]).
    reflexivity. }
  split; [exact T |].
  exact (gives_up_after_twelve (list settled) wrapping_parser 0%nat 0%nat
           "status" (Js.Arr [])
           (one_instance scripted twelve_timeouts) scripted
           [Resolved (Js.Obj [("result", Js.Obj [])])] T eq_refl).
Defined.

(** C9 as the specification states it fails: the reply [{}], which has
    neither [result] nor [error], is returned as the result of the call. *)
Lemma empty_envelope_is_a_success :
  Js.assoc "result" [] = None /\
  Js.assoc "error" [] = None /\
  exists w',
    run (sendJsonRpc wrapping_parser 1 0%nat "status" (Js.Arr []))
        (one_instance (constantly (Js.Obj [])) tt)
      = Some (Normal (Js.Obj []), w').
Proof.
  split; [reflexivity | split; [reflexivity |]].
  eexists. reflexivity.
Qed.

Lemma no_envelope_check_witness :
  let error := Js.Obj [("code", Js.Num (-32000));
                       ("message", Js.Str "boom")] in
  let fs := [("result", Js.Num 1); ("error", error)] in
  let w := one_instance (constantly (Js.Obj fs)) tt in
  run (sendJsonRpc wrapping_parser 1 0%nat "status" (Js.Arr [])) w
    = Some (Abrupt (TypedError "[-32000] boom: undefined" Js.Undefined),
            after_request w (request_of w "status" (Js.Arr [])) tt).
Proof.
  refine (proj2 (no_envelope_check unit wrapping_parser 0%nat 0%nat "status"
                   (Js.Arr [])
                   (one_instance
                      (constantly
                         (Js.Obj [("result", Js.Num 1);
                                  ("error",
                                   Js.Obj [("code", Js.Num (-32000));
                                           ("message", Js.Str "boom")])]))
                      tt)
                   (constantly
                      (Js.Obj [("result", Js.Num 1);
                               ("error",
                                Js.Obj [("code", Js.Num (-32000));
                                        ("message", Js.Str "boom")])]))
                   [("result", Js.Num 1);
                    ("error", Js.Obj [("code", Js.Num (-32000));
                                      ("message", Js.Str "boom")])]
                   tt _ _)
                (Js.Num 1)
                (Js.Obj [("code", Js.Num (-32000));
                         ("message", Js.Str "boom")])
                Js.Undefined _ _ _ _ _);
    reflexivity.
Defined.

(** ** The process as a whole *)

Lemma count_from_app (n : Z) (a b : nat) :
  count_from n (a + b) = (count_from n a ++ count_from (n + Z.of_nat a) b)%list.
Proof.
  revert n; induction a as [|a IH]; intros n.
  - simpl. now rewrite Z.add_0_r.
  - cbn [Nat.add count_from app]. rewrite IH. do 3 f_equal. lia.
Qed.

Lemma count_from_length (n : Z) (len : nat) :
  List.length (count_from n len) = len.
Proof. revert n; induction len; intros n; simpl; auto. Qed.

Lemma count_from_lower (n x : Z) (len : nat) :
  In x (count_from n len) -> n <= x.
Proof.
  revert n; induction len as [|len IH]; intros n; simpl; [tauto |].
  intros [<- | H]; [lia |]. apply IH in H. lia.
Qed.

Lemma count_from_sorted (n : Z) (len : nat) :
  StronglySorted Z.lt (count_from n len).
Proof.
  revert n; induction len as [|len IH]; intros n; simpl; constructor.
  - apply IH.
  - apply Forall_forall. intros x H. apply count_from_lower in H. lia.
Qed.

Lemma count_from_NoDup (n : Z) (len : nat) : NoDup (count_from n len).
Proof.
  revert n; induction len as [|len IH]; intros n; simpl; constructor.
  - intros H. apply count_from_lower in H. lia.
  - apply IH.
Qed.

Section Process.

Variable Ext : Type.
Variable parse : Js.value -> Js.value.

Lemma incremented_ge (n : Z) : n <= incremented n.
Proof. unfold incremented. destruct (n <? MAX_EXACT); lia. Qed.

Lemma incremented_exact (n : Z) :
  incremented n < MAX_EXACT -> incremented n = n + 1.
Proof.
  unfold incremented. destruct (n <? MAX_EXACT) eqn:L; [reflexivity |].
  apply Z.ltb_ge in L. lia.
Qed.

(** *** Every program of the class stamps its requests *)

Ltac destruct_conj H :=
  match type of H with _ /\ _ => destruct H end.

Lemma stamps_bind {A B} (c : prog Ext A) (f : A -> prog Ext B) held :
  stamps_from held c -> (forall a, stamps (f a)) ->
  stamps_from held (bind c f).
Proof.
  revert held; induction c; intros held St F; simpl in *;
    try (destruct_conj St; split; now auto); try assumption.
  subst. apply F.
Qed.

Lemma stamps_try_catch {A} (c : prog Ext A) (h : exn -> prog Ext A) held :
  stamps_from held c -> (forall e, stamps (h e)) ->
  stamps_from held (try_catch c h).
Proof.
  revert held; induction c; intros held St F; simpl in *;
    try (destruct_conj St; split; now auto); try assumption.
  subst. apply F.
Qed.

Lemma stamps_await {A} (c : prog Ext A) held :
  stamps_from held c -> stamps_from held (await c).
Proof.
  revert held; induction c; intros held St; simpl in *;
    try (destruct_conj St; split; now auto); try assumption;
    now subst.
Qed.

Lemma stamps_settle s : stamps (settle (Ext:=Ext) s).
Proof. now destruct s. Qed.

Lemma stamps_read v k : stamps (read (Ext:=Ext) v k).
Proof. unfold read. now destruct (Js.get v k). Qed.

Lemma stamps_on_throw method params e :
  stamps (on_throw (Ext:=Ext) method params e).
Proof.
  unfold on_throw. destruct (exn_type e) as [type|]; [| reflexivity].
  destruct (Js.is_string "TimeoutError" type); [| reflexivity].
  split; [reflexivity |]. intros [[|c s]|]; simpl; auto; now split.
Qed.

Lemma stamps_attempt tx this method params :
  (forall h a, stamps (tx h a)) ->
  stamps (attempt (Ext:=Ext) parse tx this method params).
Proof.
  intros Htx. apply stamps_try_catch; [| apply stamps_on_throw].
  split; [reflexivity |]. intros fields.
  destruct (_provider fields) as [provider|]; [| reflexivity].
  split; [reflexivity |]. intros n. split; [reflexivity |]. intros s.
  split; [reflexivity |]. apply stamps_bind; [apply stamps_settle |].
  intros response. destruct (Js.isArray response).
  - split; [reflexivity |]. intros fields'.
    apply stamps_bind; [apply stamps_await, Htx | reflexivity].
  - apply stamps_bind; [apply stamps_read |]. intros error.
    now destruct (Js.truthy error).
Qed.

Lemma stamps_backoff_loop budget a m base mult (g : prog Ext Js.value) :
  stamps g -> stamps (backoff_loop budget a m base mult g).
Proof.
  intros G. revert a; induction budget as [|b IH]; intros a;
    [reflexivity |].
  cbn [backoff_loop]. apply stamps_bind; [now apply stamps_await |].
  intros [| | | | | |]; try reflexivity.
  destruct (shouldRetry (S a) m); [| reflexivity].
  split; [reflexivity | apply IH].
Qed.

Lemma stamps_unwrap method response :
  stamps (unwrap (Ext:=Ext) method response).
Proof.
  unfold unwrap. apply stamps_bind.
  - destruct response; [apply stamps_read | reflexivity].
  - intros result. now destruct (Js.typeof result).
Qed.

Lemma stamps_sendJsonRpc fuel this method params :
  stamps (sendJsonRpc (Ext:=Ext) parse fuel this method params).
Proof.
  revert this method params; induction fuel as [|fuel IH];
    intros this method params; [reflexivity |].
  cbn [sendJsonRpc]. apply stamps_bind; [| apply stamps_unwrap].
  apply stamps_await, stamps_backoff_loop, stamps_attempt.
  intros h a. apply IH.
Qed.

Lemma stamps_init fuel this : stamps (init (Ext:=Ext) parse fuel this).
Proof.
  split; [reflexivity |]. intros fields.
  destruct (_provider fields); [| reflexivity].
  apply stamps_bind; [apply stamps_await, stamps_sendJsonRpc |].
  intros st. apply stamps_bind; [apply stamps_read |]. intros chain_id.
  split; [reflexivity |]. split; [reflexivity |]. intros fields'.
  destruct (_provider fields'); [| reflexivity].
  split; [reflexivity |]. intros s. split; [reflexivity |].
  apply stamps_bind; [apply stamps_settle |]. intros account.
  now split.
Qed.

Lemma stamps_task_of fuel this op :
  stamps (task_of (Ext:=Ext) parse fuel this op).
Proof.
  destruct op; cbn [task_of].
  - now split.
  - apply stamps_bind; [apply stamps_read |]. intros address.
    split; [reflexivity |].
    apply stamps_bind; [apply stamps_read |]. intros pubKeys. now split.
  - split; [reflexivity |]. intros fields.
    destruct (_provider fields); [| reflexivity].
    split; [reflexivity |]. intros s.
    apply stamps_bind; [apply stamps_settle | reflexivity].
  - apply stamps_sendJsonRpc.
Qed.

(** *** A stamping program keeps the ids fresh *)

Lemma pending_request n ids (w : World Ext) r x :
  pending n ids (Some (Request.id r)) w ->
  extends_from n ids (with_ext x (with_event (Requested r) w)).
Proof.
  intros [L1 [L2 H]].
  split; cbn [with_ext with_event nextId events request_ids]; [lia |].
  intros Lt. destruct (H Lt) as [E I]. rewrite I, E.
  rewrite <- app_assoc. f_equal.
  replace (Z.to_nat (Request.id r + 1 - n))
    with (Z.to_nat (Request.id r - n) + 1)%nat by lia.
  rewrite count_from_app. cbn [count_from]. do 2 f_equal. lia.
Qed.

Lemma pending_taken n ids (w : World Ext) :
  extends_from n ids w ->
  pending n ids (Some (nextId w))
          (with_nextId (incremented (nextId w)) w).
Proof.
  intros [L H]. pose proof (incremented_ge (nextId w)) as G.
  cbn [pending with_nextId nextId events].
  split; [exact L | split; [exact G |]].
  intros Lt. split; [now apply incremented_exact |].
  apply H. lia.
Qed.

Lemma advance_stamps {A} (c : prog Ext A) held n ids w c' w' :
  stamps_from held c ->
  pending n ids held w ->
  advance c w = (c', w') ->
  stamps c' /\ extends_from n ids w'.
Proof.
  revert held w; induction c; intros held w St P Adv; cbn in St, Adv;
    try (inversion Adv; subst; now split);
    try (destruct St as [-> St]).
  - eapply H; [apply St | | exact Adv]. now apply pending_taken.
  - eapply H; [apply St | exact P | exact Adv].
  - eapply IHc; [exact St | | exact Adv]. exact P.
  - eapply H; [apply St | exact P | exact Adv].
  - eapply IHc; [exact St | | exact Adv]. exact P.
  - eapply H; [apply St | | exact Adv]. exact P.
  - destruct (request p r (ext w)) as [s x].
    eapply H; [apply St | | exact Adv]. now apply pending_request.
  - destruct (getAccount p (ext w)) as [s x].
    eapply H; [apply St | | exact Adv]. exact P.
  - destruct (on p message l (ext w)) as [s x].
    eapply H; [apply St | | exact Adv]. exact P.
  - inversion Adv; subst. split; [exact St | exact P].
  - inversion Adv; subst. split; [exact St | exact P].
Qed.

Lemma run_stamps {A} (c : prog Ext A) held n ids w r w' :
  stamps_from held c ->
  pending n ids held w ->
  run c w = Some (r, w') ->
  extends_from n ids w'.
Proof.
  revert held w; induction c; intros held w St P R; cbn in St, R;
    try (subst held; inversion R; subst; exact P);
    try discriminate;
    try (destruct St as [-> St]).
  - eapply H; [apply St | | exact R]. now apply pending_taken.
  - eapply H; [apply St | exact P | exact R].
  - eapply IHc; [exact St | | exact R]. exact P.
  - eapply H; [apply St | exact P | exact R].
  - eapply IHc; [exact St | | exact R]. exact P.
  - eapply H; [apply St | | exact R]. exact P.
  - destruct (request p r0 (ext w)) as [s x].
    eapply H; [apply St | | exact R]. now apply pending_request.
  - destruct (getAccount p (ext w)) as [s x].
    eapply H; [apply St | | exact R]. exact P.
  - destruct (on p message l (ext w)) as [s x].
    eapply H; [apply St | | exact R]. exact P.
  - eapply IHc; [exact St | | exact R]. exact P.
  - eapply IHc; [exact St | | exact R]. exact P.
Qed.

Lemma nth_update_last (f : Instance Ext -> Instance Ext) h i d :
  nth (List.length h) (update (List.length h) f (h ++ [i])) d = f i.
Proof. induction h as [|x h IH]; simpl; auto. Qed.

(** A call that is started runs as far as [advance] takes it, and the
    caller goes on from there. *)
Lemma run_start {A B} (c : prog Ext B) (k : prog Ext B -> prog Ext A) w :
  run (start c k) w = run (k (fst (advance c w))) (snd (advance c w)).
Proof.
  revert w; induction c; intros w; cbn [start run advance fst snd]; auto.
  - destruct (request p r (ext w)) as [s x]. apply H.
  - destruct (getAccount p (ext w)) as [s x]. apply H.
  - destruct (on p message l (ext w)) as [s x]. apply H.
Qed.

Ltac failed :=
  match goal with
  | R : Some (_, ?w1) = Some _ |- _ =>
      exists w1; inversion R; subst; repeat split; reflexivity
  end.

(** What the constructor leaves behind, and what it hands back: in the
    world [w1], in which the instance is allocated and bound and the two
    listeners are registered, [init] is run up to its first [await]. *)
Lemma run_constructor fuel provider (w : World Ext) r w' :
  run (constructor parse fuel provider) w = Some (r, w') ->
  exists w1,
    heap w1 = update (List.length (heap w)) (set_provider provider)
                     (heap w ++ [blank]) /\
    nextId w1 = nextId w /\
    events w1 = events w /\
    NEAR_NO_LOGS w1 = NEAR_NO_LOGS w /\
    match r with
    | Normal (this, task) =>
        this = List.length (heap w) /\ provider <> None /\
        advance (init parse fuel this) w1 = (task, w')
    | Abrupt _ => w' = w1
    end.
Proof.
  intros R. unfold constructor in R. cbn [run] in R.
  unfold load in R. cbn [heap with_heap] in R.
  rewrite nth_update_last in R. cbn [set_provider _provider] in R.
  destruct provider as [p|]; cbn [run] in R.
  - destruct (on p "chainChanged" ListenUpdateNetwork) as [[v|reason] x];
      cbn [run bind settle ext with_heap with_ext] in R.
    + unfold load in R. cbn [heap with_heap with_ext] in R.
      rewrite nth_update_last in R. cbn [set_provider _provider run] in R.
      destruct (on p "accountsChanged" ListenUpdateAccount) as [[v'|reason] x'];
        cbn [run bind settle ext with_heap with_ext] in R.
      * rewrite run_start in R. cbn [run] in R.
        match type of R with
        | context [advance _ ?w1] => exists w1
        end.
        inversion R; subst.
        repeat split; try reflexivity; try discriminate.
        apply surjective_pairing.
      * failed.
    + failed.
  - failed.
Qed.

Lemma extends_from_same n ids (w w' : World Ext) :
  nextId w' = nextId w -> events w' = events w ->
  extends_from n ids w -> extends_from n ids w'.
Proof. unfold extends_from. intros -> ->. auto. Qed.

(** The constructor keeps the ids fresh, and so does what is left of the
    [init] it has started. *)
Lemma stamps_constructed fuel provider n ids (w : World Ext) r w' :
  extends_from n ids w ->
  run (constructor parse fuel provider) w = Some (r, w') ->
  extends_from n ids w' /\
  forall this task, r = Normal (this, task) -> stamps task.
Proof.
  intros E R.
  destruct (run_constructor _ _ _ _ _ R) as [w1 [_ [Hn [He [_ M]]]]].
  pose proof (extends_from_same n ids w w1 Hn He E) as E1.
  destruct r as [[this task]|e].
  - destruct M as [_ [_ Adv]].
    destruct (advance_stamps _ None n ids w1 task w'
                (stamps_init fuel this) E1 Adv) as [St E'].
    split; [exact E' |]. intros this' task' Eq. now inversion Eq; subst.
  - subst w'. split; [exact E1 |]. intros this task Eq. discriminate.
Qed.

Lemma Forall_replace {A} (P : A -> Prop) i a (l : list A) :
  Forall P l -> P a -> Forall P (replace i a l).
Proof.
  intros F Pa. revert i; induction F as [|x l Px F IH]; intros i;
    destruct i; simpl; constructor; auto.
Qed.

Lemma reachable_stamps s :
  reachable parse s ->
  Forall stamps (pool (Ext:=Ext) s) /\ extends_from FIRST_ID [] (world s).
Proof.
  induction 1 as [no_logs x | s x R [F E] | s fuel provider this task w R [F E] Run
                 | s fuel provider e w R [F E] Run | s fuel this op R [F E] In
                 | s i t t' w R [F E] Nth Adv]; cbn [pool world].
  - split; [constructor |]. split; [reflexivity |]. intros _. reflexivity.
  - split; [exact F | exact E].
  - split.
    + apply Forall_app. split; [exact F |]. constructor; [| constructor].
      now apply (proj2 (stamps_constructed _ _ _ _ _ _ _ E Run) this task).
    + apply (stamps_constructed _ _ _ _ _ _ _ E Run).
  - split; [exact F |]. apply (stamps_constructed _ _ _ _ _ _ _ E Run).
  - split; [| exact E].
    apply Forall_app. split; [exact F |]. constructor; [| constructor].
    apply stamps_task_of.
  - assert (St : stamps t).
    { rewrite Forall_forall in F. apply F. eapply nth_error_In, Nth. }
    destruct (advance_stamps t None FIRST_ID [] (world s) t' w St E Adv)
      as [St' E'].
    split; [| exact E']. now apply Forall_replace.
Qed.

(** C8.  At every point of every run of the process, with any number of
    instances and of calls in flight, taken up in any order: the requests
    handed to the transports so far carry the values the one counter
    [_nextId] went through, 123, 124, ..., one per request, each request of
    each attempt its own; so the ids are strictly increasing in the order of
    the requests and no id occurs twice.  This holds as long as the counter
    is below [2^53], the range in which a double counts exactly. *)
Theorem request_ids_are_fresh s :
  reachable (Ext:=Ext) parse s ->
  nextId (world s) < MAX_EXACT ->
  let ids := request_ids (events (world s)) in
  ids = count_from FIRST_ID (List.length ids) /\
  nextId (world s) = FIRST_ID + Z.of_nat (List.length ids) /\
  StronglySorted Z.lt ids /\
  NoDup ids.
Proof.
  intros R Lt ids. destruct (reachable_stamps s R) as [_ [L E]].
  specialize (E Lt). cbn [app] in E. subst ids. rewrite E.
  rewrite count_from_length. repeat split.
  - lia.
  - apply count_from_sorted.
  - apply count_from_NoDup.
Qed.

(** *** No program of the class loses the provider *)

Lemma provided_mono {A} known known' (c : prog Ext A) :
  incl known known' -> provided known c -> provided known' c.
Proof.
  intros I P. induction P; constructor; auto.
Qed.

Lemma provided_bind {A B} known (c : prog Ext A) (f : A -> prog Ext B) :
  provided known c -> (forall a, provided known (f a)) ->
  provided known (bind c f).
Proof.
  intros P F. induction P; cbn [bind]; try (constructor; now auto).
  apply F.
Qed.

Lemma provided_try_catch {A} known (c : prog Ext A) h :
  provided known c ->
  (forall e, e <> Error "Provider not exist" -> provided known (h e)) ->
  provided known (try_catch c h).
Proof.
  intros P F. induction P; cbn [try_catch]; try (constructor; now auto).
  now apply F.
Qed.

Lemma provided_await {A} known (c : prog Ext A) :
  provided known c -> provided known (await c).
Proof.
  intros P. induction P; cbn [await]; constructor; auto;
    constructor; auto.
Qed.

Lemma provided_settle known s : provided (Ext:=Ext) known (settle s).
Proof. destruct s; constructor. discriminate. Qed.

Lemma provided_read known v k : provided (Ext:=Ext) known (read v k).
Proof. unfold read. destruct (Js.get v k); constructor. discriminate. Qed.

Lemma rpc_error_is_no_Error error message :
  rpc_error parse error <> Error message.
Proof.
  unfold rpc_error.
  repeat match goal with
         | |- context [match ?x with _ => _ end] => destruct x
         end;
    discriminate.
Qed.

Lemma provided_on_throw known method params e :
  e <> Error "Provider not exist" ->
  provided (Ext:=Ext) known (on_throw method params e).
Proof.
  intros N. unfold on_throw.
  destruct (exn_type e) as [type|]; [| constructor; discriminate].
  destruct (Js.is_string "TimeoutError" type); [| now constructor].
  constructor. intros [[|c s]|]; repeat constructor.
Qed.

Lemma provided_attempt known tx this method params :
  In this known ->
  (forall h a, provided known (tx h a)) ->
  provided (Ext:=Ext) known (attempt parse tx this method params).
Proof.
  intros I Htx. apply provided_try_catch; [| apply provided_on_throw].
  constructor; [exact I |]. intros fields B.
  destruct (_provider fields) as [provider|]; [| congruence].
  cbn [bind]. constructor. intros n. constructor. intros s. constructor.
  apply provided_bind; [apply provided_settle |]. intros response.
  destruct (Js.isArray response).
  - constructor; [exact I |]. intros fields' _.
    apply provided_bind; [apply provided_await, Htx | constructor].
  - apply provided_bind; [apply provided_read |]. intros error.
    destruct (Js.truthy error); constructor.
    apply rpc_error_is_no_Error.
Qed.

Lemma provided_backoff_loop known budget a m base mult
      (g : prog Ext Js.value) :
  provided known g -> provided known (backoff_loop budget a m base mult g).
Proof.
  intros G. revert a; induction budget as [|b IH]; intros a;
    [constructor |].
  cbn [backoff_loop]. apply provided_bind; [now apply provided_await |].
  intros [| | | | | |]; try constructor.
  destruct (shouldRetry (S a) m); constructor. apply IH.
Qed.

Lemma provided_unwrap known method response :
  provided (Ext:=Ext) known (unwrap method response).
Proof.
  unfold unwrap. apply provided_bind.
  - destruct response; [apply provided_read | constructor].
  - intros result. destruct (Js.typeof result); constructor. discriminate.
Qed.

Lemma provided_sendJsonRpc known fuel this method params :
  In this known ->
  provided (Ext:=Ext) known (sendJsonRpc parse fuel this method params).
Proof.
  intros I. revert method params; induction fuel as [|fuel IH];
    intros method params; [constructor |].
  cbn [sendJsonRpc]. apply provided_bind; [| apply provided_unwrap].
  apply provided_await, provided_backoff_loop, provided_attempt; auto.
Qed.

Lemma provided_init known fuel this :
  In this known -> provided (Ext:=Ext) known (init parse fuel this).
Proof.
  intros I. constructor; [exact I |]. intros fields B.
  destruct (_provider fields); [| congruence].
  apply provided_bind; [now apply provided_await, provided_sendJsonRpc |].
  intros st. apply provided_bind; [apply provided_read |]. intros chain_id.
  constructor; [reflexivity |]. constructor; [exact I |]. intros fields' B'.
  destruct (_provider fields'); [| congruence].
  constructor. intros s. constructor.
  apply provided_bind; [apply provided_settle |]. intros account.
  constructor; [reflexivity | constructor].
Qed.

Lemma provided_task_of known fuel this op :
  In this known -> provided (Ext:=Ext) known (task_of parse fuel this op).
Proof.
  intros I. destruct op; cbn [task_of].
  - constructor; [reflexivity | constructor].
  - apply provided_bind; [apply provided_read |]. intros address.
    constructor; [reflexivity |].
    apply provided_bind; [apply provided_read |]. intros pubKeys.
    constructor; [reflexivity | constructor].
  - constructor; [exact I |]. intros fields B.
    destruct (_provider fields); [| congruence].
    constructor. intros s.
    apply provided_bind; [apply provided_settle | constructor].
  - now apply provided_sendJsonRpc.
Qed.

(** *** The store *)

Lemma update_length (f : Instance Ext -> Instance Ext) this h :
  List.length (update this f h) = List.length h.
Proof.
  revert this; induction h as [|x h IH]; intros [|n]; simpl; auto.
Qed.

Lemma nth_update_same (f : Instance Ext -> Instance Ext) this h d :
  (this < List.length h)%nat ->
  nth this (update this f h) d = f (nth this h d).
Proof.
  revert this; induction h as [|x h IH]; intros [|n] L; simpl in *;
    try lia; auto.
  apply IH. lia.
Qed.

Lemma nth_update_other (f : Instance Ext -> Instance Ext) this r h d :
  r <> this -> nth r (update this f h) d = nth r h d.
Proof.
  revert this r; induction h as [|x h IH]; intros [|n] [|r] N; simpl; auto.
  congruence.
Qed.

Lemma bound_same_heap known (w w' : World Ext) :
  heap w' = heap w -> bound known w -> bound known w'.
Proof.
  intros E B this I. unfold load. rewrite E. now apply B.
Qed.

Lemma bound_store known (w : World Ext) this f :
  (forall i, _provider (f i) = _provider i) ->
  bound known w ->
  bound known (with_heap (update this f (heap w)) w).
Proof.
  intros K B r I. destruct (B r I) as [L P]. unfold load in *.
  cbn [heap with_heap]. rewrite update_length. split; [exact L |].
  destruct (Nat.eq_dec r this) as [-> | N].
  - now rewrite nth_update_same, K.
  - now rewrite nth_update_other.
Qed.

Lemma bound_new known (w : World Ext) i :
  bound known w -> bound known (with_heap (heap w ++ [i]) w).
Proof.
  intros B r I. destruct (B r I) as [L P]. unfold load in *.
  cbn [heap with_heap]. rewrite length_app, app_nth1 by exact L.
  split; [lia | exact P].
Qed.

Lemma advance_provided {A} known (c : prog Ext A) w c' w' :
  provided known c ->
  bound known w ->
  advance c w = (c', w') ->
  provided known c' /\ bound known w'.
Proof.
  intros P. revert w.
  induction P as [a | e N | | k Pk IH | k Pk IH | m a k Pk IH
                 | this k I Pk IH | this f k K Pk IH | i k Pk IH
                 | p r k Pk IH | p k Pk IH | p m l k Pk IH
                 | ms k Pk IH | k Pk IH];
    intros w B Adv; cbn [advance] in Adv.
  - inversion Adv; subst. split; [constructor | exact B].
  - inversion Adv; subst. split; [now constructor | exact B].
  - inversion Adv; subst. split; [constructor | exact B].
  - eapply IH; [| exact Adv]. now apply (bound_same_heap known w).
  - eapply IH; [| exact Adv]. exact B.
  - eapply IH; [| exact Adv]. now apply (bound_same_heap known w).
  - eapply IH; [| exact B | exact Adv]. now apply B.
  - eapply IH; [| exact Adv]. now apply bound_store.
  - eapply IH; [| exact Adv]. now apply bound_new.
  - destruct (request p r (ext w)) as [s x].
    eapply IH; [| exact Adv]. now apply (bound_same_heap known w).
  - destruct (getAccount p (ext w)) as [s x].
    eapply IH; [| exact Adv]. now apply (bound_same_heap known w).
  - destruct (on p m l (ext w)) as [s x].
    eapply IH; [| exact Adv]. now apply (bound_same_heap known w).
  - inversion Adv; subst. split; [exact Pk |].
    now apply (bound_same_heap known w).
  - inversion Adv; subst. split; [exact Pk | exact B].
Qed.

Lemma run_provided {A} known (c : prog Ext A) w r w' :
  provided known c ->
  bound known w ->
  run c w = Some (r, w') ->
  r <> Abrupt (Error "Provider not exist") /\ bound known w'.
Proof.
  intros P. revert w.
  induction P as [a | e N | | k Pk IH | k Pk IH | m a k Pk IH
                 | this k I Pk IH | this f k K Pk IH | i k Pk IH
                 | p r0 k Pk IH | p k Pk IH | p m l k Pk IH
                 | ms k Pk IH | k Pk IH];
    intros w B R; cbn [run] in R.
  - inversion R; subst. split; [discriminate | exact B].
  - inversion R; subst. split; [congruence | exact B].
  - discriminate.
  - eapply IH; [| exact R]. now apply (bound_same_heap known w).
  - eapply IH; [| exact R]. exact B.
  - eapply IH; [| exact R]. now apply (bound_same_heap known w).
  - eapply IH; [| exact B | exact R]. now apply B.
  - eapply IH; [| exact R]. now apply bound_store.
  - eapply IH; [| exact R]. now apply bound_new.
  - destruct (request p r0 (ext w)) as [s x].
    eapply IH; [| exact R]. now apply (bound_same_heap known w).
  - destruct (getAccount p (ext w)) as [s x].
    eapply IH; [| exact R]. now apply (bound_same_heap known w).
  - destruct (on p m l (ext w)) as [s x].
    eapply IH; [| exact R]. now apply (bound_same_heap known w).
  - eapply IH; [| exact R]. now apply (bound_same_heap known w).
  - eapply IH; [| exact R]. exact B.
Qed.

Lemma bound_tail known this (w : World Ext) :
  bound (this :: known) w -> bound known w.
Proof. intros B r I. apply B. now right. Qed.

(** The constructor binds the instance it makes, and what is left of the
    [init] it has started keeps the instances bound. *)
Lemma bound_constructed known fuel provider (w : World Ext) r w' :
  bound known w ->
  run (constructor parse fuel provider) w = Some (r, w') ->
  bound known w' /\
  forall this task, r = Normal (this, task) ->
    bound (this :: known) w' /\ provided (this :: known) task.
Proof.
  intros B R.
  destruct (run_constructor _ _ _ _ _ R) as [w1 [H [_ [_ [_ M]]]]].
  assert (B1 : bound known w1).
  { intros r0 I. destruct (B r0 I) as [L P]. unfold load in *. rewrite H.
    rewrite update_length, length_app. split; [lia |].
    rewrite nth_update_other by lia. now rewrite app_nth1 by exact L. }
  destruct r as [[this task]|e].
  - destruct M as [-> [N Adv]].
    assert (B2 : bound (List.length (heap w) :: known) w1).
    { intros r0 [<- | I]; [| now apply B1]. unfold load. rewrite H.
      rewrite update_length, length_app, nth_update_last. cbn.
      split; [lia | exact N]. }
    assert (P : provided (Ext:=Ext) (List.length (heap w) :: known)
                  (init parse fuel (List.length (heap w)))).
    { apply provided_init. now left. }
    destruct (advance_provided _ _ w1 task w' P B2 Adv) as [P' B'].
    split; [now apply bound_tail in B' |].
    intros this task' Eq. inversion Eq; subst. now split.
  - subst w'. split; [exact B1 |]. intros this task Eq. discriminate.
Qed.

Lemma reachable_provided s :
  reachable (Ext:=Ext) parse s ->
  bound (constructed s) (world s) /\
  Forall (provided (constructed s)) (pool s).
Proof.
  induction 1 as [no_logs x | s x R [B F] | s fuel provider this task w R [B F] Run
                 | s fuel provider e w R [B F] Run | s fuel this op R [B F] I
                 | s i t t' w R [B F] Nth Adv]; cbn [constructed pool world].
  - split; [intros this [] | constructor].
  - split; [now apply (bound_same_heap _ (world s)) | exact F].
  - destruct (bound_constructed _ _ _ _ _ _ B Run) as [_ B'].
    destruct (B' this task eq_refl) as [B2 P2].
    split; [exact B2 |].
    apply Forall_app. split.
    + eapply Forall_impl; [| exact F]. intros t.
      apply provided_mono. now apply incl_tl, incl_refl.
    + constructor; [exact P2 | constructor].
  - destruct (bound_constructed _ _ _ _ _ _ B Run) as [B' _].
    split; [exact B' | exact F].
  - split; [exact B |].
    apply Forall_app. split; [exact F |]. constructor; [| constructor].
    now apply provided_task_of.
  - assert (P : provided (constructed s) t).
    { rewrite Forall_forall in F. apply F. eapply nth_error_In, Nth. }
    destruct (advance_provided _ t (world s) t' w P B Adv) as [P' B'].
    split; [exact B' |]. now apply Forall_replace.
Qed.

(** C10.  At every point of every run of the process: every instance that
    was constructed is bound to a transport; no call in flight has ended
    in the failure ['Provider not exist']; and no call of [sendJsonRpc] on a
    constructed instance, run from there, ends in it. *)
Theorem provider_stays_bound s :
  reachable (Ext:=Ext) parse s ->
  (forall this, In this (constructed s) ->
     _provider (load this (world s)) <> None) /\
  (forall t, In t (pool s) -> t <> Throw (Error "Provider not exist")) /\
  (forall this fuel method params r w',
     In this (constructed s) ->
     run (sendJsonRpc parse fuel this method params) (world s)
       = Some (r, w') ->
     r <> Abrupt (Error "Provider not exist")).
Proof.
  intros R. destruct (reachable_provided s R) as [B F]. repeat split.
  - intros this I. now apply B.
  - intros t I E. rewrite Forall_forall in F. specialize (F t I).
    subst t. inversion F. congruence.
  - intros this fuel method params r w' I Run.
    eapply run_provided; [| exact B | exact Run].
    now apply provided_sendJsonRpc.
Qed.

End Process.

(** ** A process to try the invariants on *)

Lemma construct_reachable {Ext} parse fuel provider (s : System Ext) :
  reachable parse s -> reachable parse (construct parse fuel provider s).
Proof.
  intros R. unfold construct.
  destruct (run (constructor parse fuel provider) (world s))
    as [[[[this task]|e] w]|] eqn:Run.
  - exact (reach_new _ parse s fuel provider this task w R Run).
  - exact (reach_new_failed _ parse s fuel provider e w R Run).
  - exact R.
Defined.

Lemma call_reachable {Ext} parse fuel this op (s : System Ext) :
  reachable parse s -> reachable parse (call parse fuel this op s).
Proof.
  intros R. unfold call.
  destruct (existsb (Nat.eqb this) (constructed s)) eqn:E; [| exact R].
  apply (reach_call _ parse s fuel this op R).
  apply existsb_exists in E. destruct E as [r [I E]].
  apply Nat.eqb_eq in E. now subst r.
Defined.

Lemma resume_reachable {Ext} parse i (s : System Ext) :
  reachable parse s -> reachable parse (resume i s).
Proof.
  intros R. unfold resume.
  destruct (nth_error (pool s) i) as [t|] eqn:Nth; [| exact R].
  exact (reach_resume _ parse s i t _ _ R Nth (surjective_pairing _)).
Defined.

Lemma demo_reachable : reachable wrapping_parser demo_system.
Proof.
  apply resume_reachable, construct_reachable, reach_boot.
Defined.

Lemma busy_reachable : reachable wrapping_parser busy_system.
Proof.
  unfold busy_system.
  repeat first [apply resume_reachable | apply call_reachable
               | apply construct_reachable].
  apply reach_boot.
Defined.

(** In the busier process there are two instances and four calls, taken up
    in turns; the first call has made a request in each of its two
    attempts. *)
Lemma request_ids_are_fresh_witness :
  constructed busy_system = [1%nat; 0%nat] /\
  List.length (pool busy_system) = 4%nat /\
  nextId (world busy_system) < MAX_EXACT /\
  request_ids (events (world busy_system)) = [123; 124; 125; 126; 127] /\
  let ids := request_ids (events (world busy_system)) in
  ids = count_from FIRST_ID (List.length ids) /\
  nextId (world busy_system) = FIRST_ID + Z.of_nat (List.length ids) /\
  StronglySorted Z.lt ids /\
  NoDup ids.
Proof.
  split; [reflexivity | split; [reflexivity |]].
  split; [reflexivity | split; [reflexivity |]].
  apply (request_ids_are_fresh (list settled) wrapping_parser busy_system
           busy_reachable).
  reflexivity.
Defined.

Lemma provider_stays_bound_witness :
  (forall this, In this (constructed demo_system) ->
     _provider (load this (world demo_system)) <> None) /\
  (forall t, In t (pool demo_system) ->
     t <> Throw (Error "Provider not exist")) /\
  (forall this fuel method params r w',
     In this (constructed demo_system) ->
     run (sendJsonRpc wrapping_parser fuel this method params)
         (world demo_system) = Some (r, w') ->
     r <> Abrupt (Error "Provider not exist")).
Proof.
  exact (provider_stays_bound (list settled) wrapping_parser demo_system
           demo_reachable).
Defined.

(** * Further properties of the provider *)

Section Further.

Variable Ext : Type.
Variable parse : Js.value -> Js.value.

(** ** What an attempt can return *)

Lemma after_request_load this (w : World Ext) r x :
  load this (after_request w r x) = load this w.
Proof. reflexivity. Qed.

(** A run only adds to the events. *)
Lemma run_events {A} (c : prog Ext A) (w : World Ext) r w' :
  run c w = Some (r, w') ->
  exists evs, events w' = (evs ++ events w)%list.
Proof.
  revert w; induction c; intros w R; cbn [run] in R;
    try (inversion R; subst; now exists []);
    try discriminate;
    try (now eapply H in R); try (now apply IHc in R).
  - apply IHc in R. destruct R as [evs R]. rewrite R.
    now exists (evs ++ [Warned message arg])%list; rewrite <- app_assoc.
  - destruct (request p r0 (ext w)) as [s x]. apply H in R.
    destruct R as [evs R]. rewrite R.
    now exists (evs ++ [Requested r0])%list; rewrite <- app_assoc.
  - destruct (getAccount p (ext w)) as [s x]. now apply H in R.
  - destruct (on p message l (ext w)) as [s x]. now apply H in R.
  - apply IHc in R. destruct R as [evs R]. rewrite R.
    now exists (evs ++ [Slept ms])%list; rewrite <- app_assoc.
Qed.

(** An attempt returns [null], or the result of a lookup under [reesult],
    or, under [result], the reply to its request, which has no truthy
    [error]; the request is then the last thing it has done. *)
Lemma attempt_normal tx this method params (w : World Ext) v w' :
  run (attempt parse tx this method params) w = Some (Normal v, w') ->
  v = Js.Null \/
  (exists txStatus, v = Js.Obj [("reesult", txStatus)]) \/
  (exists response error p x,
      v = Js.Obj [("result", response)] /\
      Js.isArray response = false /\
      Js.get response "error" = Some error /\
      Js.truthy error = false /\
      _provider (load this w) = Some p /\
      request p (request_of w method params) (ext w)
        = (Resolved response, x) /\
      w' = after_request w (request_of w method params) x).
Proof.
  unfold attempt. rewrite run_try_catch. cbn [run].
  destruct (_provider (load this w)) as [p|] eqn:Hp.
  - cbn [bind run].
    destruct (request p _ _) as [[response|reason] x] eqn:Hr;
      cbn [settle bind run].
    + destruct (Js.isArray response) eqn:Ha.
      * cbn [run]. rewrite run_bind, run_await.
        match goal with |- context [run (tx ?h ?a) ?w0] =>
          destruct (run (tx h a) w0) as [[[txStatus|e] w1]|] end.
        -- cbn [run]. intros H. inversion H. right. left. now eexists.
        -- unfold on_throw. destruct (exn_type e) as [type|];
             [| discriminate].
           destruct (Js.is_string "TimeoutError" type); [| discriminate].
           cbn [run]. destruct (NEAR_NO_LOGS w1) as [[|c s]|]; cbn [run];
             intros H; inversion H; now left.
        -- discriminate.
      * unfold read. destruct (Js.get response "error") as [error|] eqn:He.
        -- cbn [bind]. destruct (Js.truthy error) eqn:Ht; cbn [run].
           ++ unfold on_throw.
              destruct (exn_type (rpc_error parse error)) as [type|];
                [| discriminate].
              destruct (Js.is_string "TimeoutError" type); [| discriminate].
              cbn [run].
              match goal with |- context [NEAR_NO_LOGS ?w0] =>
                destruct (NEAR_NO_LOGS w0) as [[|c s]|] end; cbn [run];
                intros H; inversion H; now left.
           ++ intros H. inversion H. right. right.
              exists response, error, p, x.
              repeat split; auto.
        -- cbn [bind run on_throw exn_type Js.is_string]. discriminate.
    + unfold on_throw. cbn [exn_type].
      destruct (Js.get reason "type") as [type|]; [| discriminate].
      destruct (Js.is_string "TimeoutError" type); [| discriminate].
      cbn [run].
      match goal with |- context [NEAR_NO_LOGS ?w0] =>
        destruct (NEAR_NO_LOGS w0) as [[|c s]|] end; cbn [run];
        intros H; inversion H; now left.
  - cbn [run on_throw exn_type Js.is_string]. discriminate.
Qed.

(** The value the loop settles on is the value of one of its attempts, made
    in a world [w0] the loop has gone through. *)
Lemma backoff_settled_origin base mult (g : prog Ext Js.value) m :
  forall budget a (w : World Ext) v w',
    run (backoff_loop budget a m base mult g) w
      = Some (Normal (Settled v), w') ->
    v <> Js.Null /\
    exists w0 evs,
      run g w0 = Some (Normal v, w') /\
      events w0 = (evs ++ events w)%list.
Proof.
  induction budget as [|b IH]; intros a w v w'; [discriminate |].
  rewrite backoff_loop_S, run_bind, run_await.
  destruct (run g w) as [[[r|e] w1]|] eqn:G; try discriminate.
  destruct r; cbn [run];
    try (intros H; inversion H; subst; split;
         [discriminate | now exists w, []]).
  destruct (shouldRetry (S a) m); [| discriminate].
  cbn [run]. intros H. apply IH in H.
  destruct H as [N [w0 [evs [R E]]]]. split; [exact N |].
  apply run_events in G. destruct G as [evs1 G].
  exists w0, (evs ++ Slept (delayFor a base mult) :: evs1)%list.
  split; [exact R |]. rewrite E. cbn [with_event events]. rewrite G.
  now rewrite <- app_assoc.
Qed.

(** What [sendJsonRpc] returns is a reply of the transport that is no
    array and has no truthy [error]: the reply to the request of the last
    attempt, made in a world [w0] the call has gone through; with this
    request the call has ended. *)
Lemma sendJsonRpc_returns_a_reply fuel this method params (w : World Ext)
      v w' :
  run (sendJsonRpc parse fuel this method params) w = Some (Normal v, w') ->
  Js.isArray v = false /\
  (exists error, Js.get v "error" = Some error /\ Js.truthy error = false) /\
  exists w0 p x evs,
    events w0 = (evs ++ events w)%list /\
    _provider (load this w0) = Some p /\
    request p (request_of w0 method params) (ext w0) = (Resolved v, x) /\
    w' = after_request w0 (request_of w0 method params) x.
Proof.
  destruct fuel as [|fuel]; [discriminate |].
  rewrite sendJsonRpc_unfold, run_bind, run_await.
  unfold exponentialBackoff.
  destruct (run (backoff_loop _ _ _ _ _ _) w) as [[[o|e] w1]|] eqn:L;
    try discriminate.
  destruct o as [v0|]; [| discriminate].
  apply backoff_settled_origin in L. destruct L as [N [w0 [evs [G E]]]].
  apply attempt_normal in G.
  destruct G as [-> | [[t ->]
                      | [response [error [p [x [-> [Ha [He [Ht [Hp [Hr ->]]]]]]]]]]]].
  - congruence.
  - discriminate.
  - unfold unwrap, result_of, read.
    cbn [Js.get Js.assoc String.eqb Ascii.eqb Bool.eqb bind].
    destruct response; cbn; try discriminate;
      intros H; inversion H; subst; split; auto;
      (split; [exists error; auto | exists w0, p, x, evs; auto]).
Qed.

(** What [sendJsonRpc] returns is no array, neither [undefined] nor
    [null], and has no truthy [error]. *)
Lemma sendJsonRpc_result_plain fuel this method params (w : World Ext)
      v w' :
  run (sendJsonRpc parse fuel this method params) w = Some (Normal v, w') ->
  Js.isArray v = false /\
  Js.is_nullish v = false /\
  Js.truthy (field v "error") = false.
Proof.
  intros R. apply sendJsonRpc_returns_a_reply in R.
  destruct R as [Ha [[error [He Ht]] _]]. split; [exact Ha |].
  assert (Hn : Js.is_nullish v = false) by (destruct v; simpl in *; congruence).
  split; [exact Hn |]. rewrite (get_field v "error" Hn) in He.
  inversion He. congruence.
Qed.

(** ** Replies and rejections *)

(** X1.  On an instance without a provider [sendJsonRpc] ends with the error
    ['Provider not exist'] and leaves the world as it is: no id is taken from
    the counter, nothing is handed to a transport, nothing is logged and
    there is no wait. *)
Theorem no_provider_no_request fuel this method params (w : World Ext) :
  _provider (load this w) = None ->
  run (sendJsonRpc parse (S fuel) this method params) w
    = Some (Abrupt (Error "Provider not exist"), w).
Proof.
  intros Hp. apply run_sendJsonRpc_thrown.
  unfold attempt. cbn [try_catch run]. now rewrite Hp.
Qed.

(** X2.  A reply that is [undefined] or [null] ends the call with a
    TypeError, after one request and without a second attempt. *)
Theorem nullish_reply_raises_TypeError fuel this method params
        (w : World Ext) p reply x :
  _provider (load this w) = Some p ->
  request p (request_of w method params) (ext w) = (Resolved reply, x) ->
  Js.is_nullish reply = true ->
  run (sendJsonRpc parse (S fuel) this method params) w
    = Some (Abrupt TypeError,
            after_request w (request_of w method params) x).
Proof.
  intros Hp Hr Hn. apply run_sendJsonRpc_thrown.
  unfold attempt. cbn [try_catch run]. rewrite Hp.
  cbn [try_catch bind run]. unfold request_of in Hr.
  cbn [nextId with_nextId ext]. rewrite Hr.
  destruct reply; try discriminate; reflexivity.
Qed.

(** X3.  Every reply that is neither an array nor [undefined] nor [null] and
    whose [error] is absent or falsy is the result of the call, as it is:
    the numbers, strings and booleans (also [0], the empty string and
    [false]) and the objects whose [error] is [null], [0], [false] or
    empty. *)
Theorem plain_reply_is_returned fuel this method params (w : World Ext)
        p reply x :
  _provider (load this w) = Some p ->
  request p (request_of w method params) (ext w) = (Resolved reply, x) ->
  Js.isArray reply = false ->
  Js.is_nullish reply = false ->
  Js.truthy (field reply "error") = false ->
  run (sendJsonRpc parse (S fuel) this method params) w
    = Some (Normal reply, after_request w (request_of w method params) x).
Proof.
  intros Hp Hr Ha Hn Ht.
  apply (sendJsonRpc_success Ext parse fuel this method params w p reply x
           (field reply "error")); auto.
  now apply get_field.
Qed.

(** X4.  An [error] that is truthy and no object (a string, a number,
    [true], an array) has none of [code], [message], [data] and [name]: its
    text does not reach the caller, the call ends at once with the message
    ['[undefined] undefined: undefined'] and the type [undefined]. *)
Theorem error_text_is_lost fuel this method params (w : World Ext)
        p reply x error :
  _provider (load this w) = Some p ->
  request p (request_of w method params) (ext w) = (Resolved reply, x) ->
  Js.isArray reply = false ->
  Js.get reply "error" = Some error ->
  Js.truthy error = true ->
  (forall fs, error <> Js.Obj fs) ->
  run (sendJsonRpc parse (S fuel) this method params) w
    = Some (Abrupt (TypedError "[undefined] undefined: undefined"
                      Js.Undefined),
            after_request w (request_of w method params) x).
Proof.
  intros Hp Hr Ha He Ht Ho.
  assert (E : rpc_error parse error
              = TypedError "[undefined] undefined: undefined" Js.Undefined).
  { destruct error; try discriminate; try reflexivity.
    now destruct (Ho fields). }
  rewrite <- E.
  apply (sendJsonRpc_fails_fast Ext parse fuel this method params w p reply
           x error Js.Undefined); auto.
  now rewrite E.
Qed.

(** X5.  A request the transport rejects: a reason whose [type] is not
    ['TimeoutError'] ends the call at once, thrown as it is; the reasons
    [undefined] and [null] end it with a TypeError, raised by the read of
    their [type], in place of the reason; a reason whose [type] is
    ['TimeoutError'] makes the attempt yield [null], as a timeout reported by
    the node does. *)
Theorem rejected_request fuel this method params (w : World Ext)
        p reason x :
  _provider (load this w) = Some p ->
  request p (request_of w method params) (ext w) = (Rejected reason, x) ->
  let w1 := after_request w (request_of w method params) x in
  (forall type,
      Js.get reason "type" = Some type ->
      Js.is_string "TimeoutError" type = false ->
      run (sendJsonRpc parse (S fuel) this method params) w
        = Some (Abrupt (Rejection reason), w1)) /\
  (Js.is_nullish reason = true ->
   run (sendJsonRpc parse (S fuel) this method params) w
     = Some (Abrupt TypeError, w1)) /\
  (Js.get reason "type" = Some (Js.Str "TimeoutError") ->
   exists w2,
     run (attempt parse (txStatusString parse fuel this) this method params)
         w = Some (Normal Js.Null, w2) /\
     count_requests (events w2) = S (count_requests (events w))).
Proof.
  intros Hp Hr w1.
  assert (G : forall tx,
             run (attempt parse tx this method params) w
             = run (on_throw method params (Rejection reason)) w1).
  { intros tx. unfold attempt. cbn [try_catch run]. rewrite Hp.
    cbn [try_catch bind run]. unfold request_of in Hr.
    cbn [nextId with_nextId ext]. now rewrite Hr. }
  repeat split.
  - intros type Hty Hn. apply run_sendJsonRpc_thrown. rewrite G.
    now apply (run_on_throw_other Ext method params _ type).
  - intros Hn. apply run_sendJsonRpc_thrown. rewrite G.
    unfold on_throw. cbn [exn_type].
    destruct reason; try discriminate; reflexivity.
  - intros Hty.
    destruct (run_on_throw_timeout Ext method params (Rejection reason) w1
                Hty) as [w2 [R [_ [_ [_ Hc]]]]].
    exists w2. rewrite G. split; [exact R |]. rewrite Hc. reflexivity.
Qed.

(** X6.  The diagnostic of a retry: an attempt that gets a reply thrown as a
    timeout yields [null]; it leaves one line,
    ['Retrying request to <method> as it has timed out'] with the parameters,
    when [NEAR_NO_LOGS] is unset or empty, and no line when it is set. *)
Theorem retry_diagnostic tx this method params (w : World Ext)
        p reply x :
  _provider (load this w) = Some p ->
  request p (request_of w method params) (ext w) = (Resolved reply, x) ->
  timeout_reply parse reply ->
  exists w',
    run (attempt parse tx this method params) w = Some (Normal Js.Null, w') /\
    events w' =
      (match NEAR_NO_LOGS w with
       | None | Some "" =>
           [Warned ("Retrying request to " ++ method
                      ++ " as it has timed out")%string params]
       | Some _ => []
       end ++ Requested (request_of w method params) :: events w)%list.
Proof.
  intros Hp Hr [Ha [error [He [Ht Hty]]]].
  rewrite (run_attempt_reply Ext parse tx this method params w p reply x
             error Hp Hr Ha He), Ht.
  unfold on_throw. rewrite Hty. cbn.
  destruct (NEAR_NO_LOGS w) as [[|c s]|]; eexists; split; reflexivity.
Qed.

(** X7.  When the lookup an array reply makes ends with an error that is not
    of the type ['TimeoutError'], the call ends with that error, as it is:
    a lookup that gives up does so in the name of ['tx'], not of the method
    of the call. *)
Theorem lookup_failure_is_passed_on fuel this method params (w : World Ext)
        p items x e type w2 :
  _provider (load this w) = Some p ->
  request p (request_of w method params) (ext w)
    = (Resolved (Js.Arr items), x) ->
  run (txStatusString parse fuel this (Js.first (Js.Arr items))
         (_account (load this w)))
      (after_request w (request_of w method params) x)
    = Some (Abrupt e, w2) ->
  exn_type e = Some type ->
  Js.is_string "TimeoutError" type = false ->
  run (sendJsonRpc parse (S fuel) this method params) w
    = Some (Abrupt e, w2).
Proof.
  intros Hp Hr Hl Hty Hn. apply run_sendJsonRpc_thrown.
  unfold attempt. cbn [try_catch run]. rewrite Hp.
  cbn [try_catch bind run]. unfold request_of in Hr.
  cbn [nextId with_nextId ext]. rewrite Hr.
  cbn [settle try_catch bind run Js.isArray].
  rewrite run_try_catch, run_bind, run_await.
  unfold after_request, request_of in Hl.
  unfold load in *. cbn [heap with_ext with_event with_nextId] in *.
  rewrite Hl. now apply (run_on_throw_other Ext method params e type).
Qed.

(** X8.  Against a transport that answers every request with an array, each
    lookup is answered with an array and makes a lookup of its own: the call
    does not come to an end, whatever the depth to which it is followed. *)
Theorem arrays_without_end p :
  always_arrays p ->
  forall fuel this method params (w : World Ext),
    _provider (load this w) = Some p ->
    run (sendJsonRpc parse fuel this method params) w = None.
Proof.
  intros Haa. induction fuel as [|fuel IH]; intros this method params w Hp;
    [reflexivity |].
  rewrite sendJsonRpc_unfold, run_bind, run_await.
  unfold exponentialBackoff, REQUEST_RETRY_NUMBER.
  rewrite backoff_loop_S, run_bind, run_await.
  assert (G : run (attempt parse (txStatusString parse fuel this) this
                     method params) w = None).
  { destruct (Haa (request_of w method params) (ext w)) as [items [x Hr]].
    unfold attempt. cbn [try_catch run]. rewrite Hp.
    cbn [try_catch bind run]. unfold request_of in Hr.
    cbn [nextId with_nextId ext]. rewrite Hr.
    cbn [settle try_catch bind run Js.isArray].
    rewrite run_try_catch, run_bind, run_await.
    unfold txStatusString. rewrite IH; [reflexivity |]. exact Hp. }
  now rewrite G.
Qed.

(** X9.  What [sendJsonRpc] returns is always a reply of the transport to
    a request of this call: the call has gone through a world [w0], later
    than the one it started in, in which the transport of the instance has
    answered the request for [method] and [params] with the value returned;
    with this request the call has ended.  The value is no array, neither
    [undefined] nor [null], and has no truthy [error]. *)
Theorem result_is_a_plain_reply fuel this method params (w : World Ext)
        v w' :
  run (sendJsonRpc parse fuel this method params) w = Some (Normal v, w') ->
  (exists w0 p x evs,
      events w0 = (evs ++ events w)%list /\
      _provider (load this w0) = Some p /\
      request p (request_of w0 method params) (ext w0) = (Resolved v, x) /\
      w' = after_request w0 (request_of w0 method params) x) /\
  Js.isArray v = false /\
  Js.is_nullish v = false /\
  Js.truthy (field v "error") = false.
Proof.
  intros R. split.
  - now apply sendJsonRpc_returns_a_reply in R.
  - now apply sendJsonRpc_result_plain in R.
Qed.

(** ** [sendJsonRpc] and the fields *)

Lemma reads_only_bind {A B} (c : prog Ext A) (f : A -> prog Ext B) :
  reads_only c -> (forall a, reads_only (f a)) -> reads_only (bind c f).
Proof. induction c; simpl; intros Rc F; auto; tauto. Qed.

Lemma reads_only_try_catch {A} (c : prog Ext A) h :
  reads_only c -> (forall e, reads_only (h e)) -> reads_only (try_catch c h).
Proof. induction c; simpl; intros Rc F; auto; tauto. Qed.

Lemma reads_only_await {A} (c : prog Ext A) :
  reads_only c -> reads_only (await c).
Proof. induction c; simpl; intros Rc; auto; tauto. Qed.

Lemma reads_only_settle s : reads_only (settle (Ext:=Ext) s).
Proof. now destruct s. Qed.

Lemma reads_only_read v k : reads_only (read (Ext:=Ext) v k).
Proof. unfold read. now destruct (Js.get v k). Qed.

Lemma reads_only_on_throw method params e :
  reads_only (on_throw (Ext:=Ext) method params e).
Proof.
  unfold on_throw. destruct (exn_type e) as [type|]; [| exact I].
  destruct (Js.is_string "TimeoutError" type); [| exact I].
  intros [[|c s]|]; exact I.
Qed.

Lemma reads_only_attempt tx this method params :
  (forall h a, reads_only (tx h a)) ->
  reads_only (attempt (Ext:=Ext) parse tx this method params).
Proof.
  intros Htx. apply reads_only_try_catch; [| apply reads_only_on_throw].
  intros fields. destruct (_provider fields) as [provider|]; [| exact I].
  intros n s. cbn [bind reads_only].
  apply reads_only_bind; [apply reads_only_settle |]. intros response.
  destruct (Js.isArray response).
  - intros fields'.
    apply reads_only_bind; [apply reads_only_await, Htx | intros; exact I].
  - apply reads_only_bind; [apply reads_only_read |]. intros error.
    now destruct (Js.truthy error).
Qed.

Lemma reads_only_backoff_loop budget a m base mult (g : prog Ext Js.value) :
  reads_only g -> reads_only (backoff_loop budget a m base mult g).
Proof.
  intros G. revert a; induction budget as [|b IH]; intros a; [exact I |].
  rewrite backoff_loop_S.
  apply reads_only_bind; [now apply reads_only_await |].
  intros [| | | | | |]; try exact I.
  destruct (shouldRetry (S a) m); [apply IH | exact I].
Qed.

Lemma reads_only_unwrap method response :
  reads_only (unwrap (Ext:=Ext) method response).
Proof.
  unfold unwrap. apply reads_only_bind.
  - destruct response; [apply reads_only_read | exact I].
  - intros result. now destruct (Js.typeof result).
Qed.

Lemma reads_only_sendJsonRpc fuel this method params :
  reads_only (sendJsonRpc (Ext:=Ext) parse fuel this method params).
Proof.
  revert this method params; induction fuel as [|fuel IH];
    intros this method params; [exact I |].
  rewrite sendJsonRpc_unfold.
  apply reads_only_bind; [| apply reads_only_unwrap].
  apply reads_only_await, reads_only_backoff_loop, reads_only_attempt.
  intros h a. apply IH.
Qed.

Lemma run_reads_only {A} (c : prog Ext A) (w : World Ext) r w' :
  reads_only c ->
  run c w = Some (r, w') ->
  heap w' = heap w /\ NEAR_NO_LOGS w' = NEAR_NO_LOGS w /\
  nextId w <= nextId w' /\
  exists later, events w' = (later ++ events w)%list.
Proof.
  revert w; induction c; intros w Rc R; cbn [run reads_only] in *;
    try contradiction; try discriminate;
    try (inversion R; subst; repeat split; [lia | now exists []]).
  - destruct (H _ _ (Rc _) R) as [Hh [He [Hn [later Hl]]]].
    cbn in *. pose proof (incremented_ge (nextId w)).
    repeat split; auto; [lia | now exists later].
  - now apply (H _ _ (Rc _) R).
  - destruct (IHc _ Rc R) as [Hh [He [Hn [later Hl]]]].
    repeat split; auto. exists (later ++ [Warned message arg])%list.
    now rewrite <- app_assoc.
  - now apply (H _ _ (Rc _) R).
  - destruct (request p r0 (ext w)) as [s x].
    destruct (H _ _ (Rc _) R) as [Hh [He [Hn [later Hl]]]].
    repeat split; auto. exists (later ++ [Requested r0])%list.
    now rewrite <- app_assoc.
  - destruct (getAccount p (ext w)) as [s x].
    now apply (H _ _ (Rc _) R).
  - destruct (on p message l (ext w)) as [s x].
    now apply (H _ _ (Rc _) R).
  - destruct (IHc _ Rc R) as [Hh [He [Hn [later Hl]]]].
    repeat split; auto. exists (later ++ [Slept ms])%list.
    now rewrite <- app_assoc.
  - now apply (IHc _ Rc R).
Qed.

(** X10.  Whatever its outcome, a call of [sendJsonRpc] assigns to no field
    of any instance and leaves [NEAR_NO_LOGS] alone; the counter does not go
    down and the events that were there stay, the new ones in front. *)
Theorem sendJsonRpc_keeps_the_fields fuel this method params
        (w : World Ext) r w' :
  run (sendJsonRpc parse fuel this method params) w = Some (r, w') ->
  heap w' = heap w /\ NEAR_NO_LOGS w' = NEAR_NO_LOGS w /\
  nextId w <= nextId w' /\
  exists later, events w' = (later ++ events w)%list.
Proof.
  apply run_reads_only, reads_only_sendJsonRpc.
Qed.

(** ** [query] *)

Variable stringify : Js.value -> string.

Lemma query_call_result fuel this args (w : World Ext) v w' :
  run (query_call parse fuel this args) w = Some (Normal v, w') ->
  Js.isArray v = false /\ Js.is_nullish v = false /\
  Js.truthy (field v "error") = false.
Proof.
  unfold query_call.
  destruct args as [|arg [|arg' rest]].
  - rewrite run_await. apply sendJsonRpc_result_plain.
  - destruct (query_params arg); [| discriminate].
    rewrite run_await. apply sendJsonRpc_result_plain.
  - rewrite run_await. apply sendJsonRpc_result_plain.
Qed.

(** X11.  The check [query] makes of its result cannot fail: what
    [sendJsonRpc] returns has no truthy [error], so [query] never throws
    ['Querying failed'] and ends exactly as its call of [sendJsonRpc] ends. *)
Theorem query_check_never_fires fuel this args (w : World Ext) :
  run (query parse stringify fuel this args) w
    = run (query_call parse fuel this args) w.
Proof.
  unfold query. rewrite run_bind.
  destruct (run (query_call parse fuel this args) w) as [[[v|e] w']|] eqn:R;
    try reflexivity.
  destruct (query_call_result _ _ _ _ _ _ R) as [_ [Hn Ht]].
  unfold query_check, read. rewrite (get_field v "error" Hn).
  cbn [bind]. rewrite Ht. now destruct (Js.truthy v).
Qed.

(** ** The fields of an instance *)

Lemma load_update_same (w : World Ext) this f :
  (this < List.length (heap w))%nat ->
  load this (with_heap (update this f (heap w)) w) = f (load this w).
Proof. intros L. unfold load. cbn [heap with_heap]. now apply nth_update_same. Qed.

Lemma load_update_other (w : World Ext) this other f :
  other <> this ->
  load other (with_heap (update this f (heap w)) w) = load other w.
Proof. intros N. unfold load. cbn [heap with_heap]. now apply nth_update_other. Qed.

(** X12.  [init] on an instance of the store whose transport answers
    [status] with a plain reply: when [getAccount] resolves, the network
    becomes the [chain_id] of the reply ([undefined] if it has none) and the
    account the value of [getAccount]; when [getAccount] is rejected, [init]
    ends with the reason and the network is changed all the same, the
    account is not.  The provider stays as it is. *)
Theorem init_sets_network_then_account fuel this (w : World Ext)
        p reply x :
  (this < List.length (heap w))%nat ->
  _provider (load this w) = Some p ->
  request p (request_of w "status" (Js.Arr [])) (ext w)
    = (Resolved reply, x) ->
  Js.isArray reply = false ->
  Js.is_nullish reply = false ->
  Js.truthy (field reply "error") = false ->
  let chain_id := field reply "chain_id" in
  (forall acct x',
      getAccount p x = (Resolved acct, x') ->
      exists w',
        run (init parse (S fuel) this) w = Some (Normal Js.Undefined, w') /\
        load this w'
          = set_account acct (set_network chain_id (load this w))) /\
  (forall reason x',
      getAccount p x = (Rejected reason, x') ->
      exists w',
        run (init parse (S fuel) this) w
          = Some (Abrupt (Rejection reason), w') /\
        load this w' = set_network chain_id (load this w)).
Proof.
  intros L Hp Hr Ha Hn Ht chain_id.
  pose proof (sendJsonRpc_success Ext parse fuel this "status" (Js.Arr [])
                w p reply x (field reply "error") Hp Hr Ha
                (get_field reply "error" Hn) Ht) as Hs.
  assert (R : run (init parse (S fuel) this) w
              = let w1 := after_request w (request_of w "status" (Js.Arr []))
                            x in
                let w2 := with_heap (update this (set_network chain_id)
                                       (heap w1)) w1 in
                let (s, x') := getAccount p x in
                run (bind (settle s) (fun acct =>
                       Store this (set_account acct) (Ret Js.Undefined)))
                    (with_ext x' w2)).
  { unfold init. cbn [run]. rewrite Hp.
    rewrite run_bind, run_await. unfold status. rewrite Hs.
    unfold read. rewrite (get_field reply "chain_id" Hn).
    cbn [bind run]. fold chain_id.
    rewrite load_update_same by exact L.
    rewrite after_request_load. cbn [set_network _provider]. rewrite Hp.
    cbn [run ext with_heap after_request with_ext].
    destruct (getAccount p x) as [s x']. reflexivity. }
  split.
  - intros acct x' Hg. rewrite R, Hg. cbn [settle bind run].
    eexists. split; [reflexivity |].
    rewrite load_update_same.
    + unfold load. cbn [heap with_ext with_heap after_request].
      fold (load this w). now rewrite nth_update_same.
    + cbn [heap with_ext with_heap after_request].
      now rewrite update_length.
  - intros reason x' Hg. rewrite R, Hg. cbn [settle bind run].
    eexists. split; [reflexivity |].
    unfold load. cbn [heap with_ext with_heap after_request with_event with_nextId].
    now rewrite nth_update_same.
Qed.

(** X13.  [updateAccount] on an instance of the store: for [undefined] or
    [null] it throws a TypeError and changes nothing; for any other value
    the getters [account] and [pubKeys] return its [address] and [pubKeys]
    afterwards, [network] and the provider are as before, and so are the
    fields of every other instance. *)
Theorem updateAccount_then_getters this acct (w : World Ext) :
  (this < List.length (heap w))%nat ->
  (Js.is_nullish acct = true ->
   run (updateAccount this acct) w = Some (Abrupt TypeError, w)) /\
  (Js.is_nullish acct = false ->
   exists w',
     run (updateAccount this acct) w = Some (Normal Js.Undefined, w') /\
     run (account this) w' = Some (Normal (field acct "address"), w') /\
     run (pubKeys this) w' = Some (Normal (field acct "pubKeys"), w') /\
     run (network this) w' = Some (Normal (_network (load this w)), w') /\
     _provider (load this w') = _provider (load this w) /\
     forall other, other <> this -> load other w' = load other w).
Proof.
  intros L. split; intros Hn.
  - destruct acct; try discriminate; reflexivity.
  - unfold updateAccount, read.
    rewrite !(get_field acct) by exact Hn. cbn [bind run].
    eexists. split; [reflexivity |].
    assert (E : forall f g,
               load this (with_heap (update this g
                            (heap (with_heap (update this f (heap w)) w)))
                            (with_heap (update this f (heap w)) w))
               = g (f (load this w))).
    { intros f g. rewrite load_update_same.
      - now rewrite load_update_same.
      - cbn [heap with_heap]. now rewrite update_length. }
    unfold account, pubKeys, network. cbn [run]. rewrite !E.
    repeat split; try reflexivity.
    intros other N. now rewrite !load_update_other.
Qed.

(** ** The parameters the methods shape *)

Lemma assoc_without ks k fs :
  Js.assoc k (without ks fs)
  = if existsb (String.eqb k) ks then None else Js.assoc k fs.
Proof.
  induction fs as [|[k' v] fs IH]; simpl.
  - now destruct (existsb (String.eqb k) ks).
  - destruct (existsb (String.eqb k') ks) eqn:E'; simpl.
    + rewrite IH. destruct (String.eqb k k') eqn:K; [| reflexivity].
      apply String.eqb_eq in K. subst k'. now rewrite E'.
    + rewrite IH. destruct (String.eqb k k') eqn:K; [| reflexivity].
      apply String.eqb_eq in K. subst k'. now rewrite E'.
Qed.

Lemma assoc_define_same k v fs : Js.assoc k (define k v fs) = Some v.
Proof.
  induction fs as [|[k' v'] fs IH]; simpl.
  - now rewrite String.eqb_refl.
  - destruct (String.eqb k k') eqn:K; simpl.
    + now rewrite String.eqb_refl.
    + now rewrite K.
Qed.

Lemma assoc_define_other k k' v fs :
  k' <> k -> Js.assoc k' (define k v fs) = Js.assoc k' fs.
Proof.
  intros N. apply String.eqb_neq in N.
  induction fs as [|[k0 v0] fs IH]; simpl.
  - now rewrite N.
  - destruct (String.eqb k k0) eqn:K; simpl.
    + apply String.eqb_eq in K. subst k0. now rewrite N.
    + now rewrite IH.
Qed.

(** X14.  [experimental_protocolConfig] for a block reference that is an
    object: the parameters it sends have the [blockId] of the reference as
    their [block_id], also when the reference has a [block_id] of its own,
    which is overwritten (by [undefined] when there is no [blockId]); they
    have no [blockId]; in every other key they agree with the reference. *)
Theorem protocolConfig_params fuel this fs :
  exists ps,
    experimental_protocolConfig (Ext:=Ext) parse fuel this (Js.Obj fs)
      = await (sendJsonRpc parse fuel this "EXPERIMENTAL_protocol_config"
                 (Js.Obj ps)) /\
    Js.assoc "block_id" ps = Some (field (Js.Obj fs) "blockId") /\
    Js.assoc "blockId" ps = None /\
    forall k, k <> "block_id" -> k <> "blockId" ->
              Js.assoc k ps = Js.assoc k fs.
Proof.
  eexists. split; [reflexivity |]. split; [apply assoc_define_same |].
  split.
  - rewrite assoc_define_other by discriminate. now rewrite assoc_without.
  - intros k N1 N2. rewrite assoc_define_other by exact N1.
    rewrite assoc_without. cbn [existsb].
    apply String.eqb_neq in N2. now rewrite N2.
Qed.

(** X15.  [query] with one argument that is an object sends it with
    [block_id] set to [block_id || blockId], without [blockId] and otherwise
    as it is; with one argument that is [undefined] or [null] it throws a
    TypeError and sends nothing; with any other number of arguments it sends
    the first two as [[path, data]], [undefined] where they are missing. *)
Theorem query_shapes_its_parameters fuel this :
  (forall fs, exists ps,
      query_call (Ext:=Ext) parse fuel this [Js.Obj fs]
        = await (sendJsonRpc parse fuel this "query" (Js.Obj ps)) /\
      Js.assoc "block_id" ps
        = Some (or_else (field (Js.Obj fs) "block_id")
                        (field (Js.Obj fs) "blockId")) /\
      Js.assoc "blockId" ps = None /\
      forall k, k <> "block_id" -> k <> "blockId" ->
                Js.assoc k ps = Js.assoc k fs) /\
  (forall arg, Js.is_nullish arg = true ->
      query_call (Ext:=Ext) parse fuel this [arg] = Throw TypeError) /\
  (forall args, List.length args <> 1%nat ->
      query_call (Ext:=Ext) parse fuel this args
        = await (sendJsonRpc parse fuel this "query"
                   (Js.Arr [nth 0 args Js.Undefined;
                            nth 1 args Js.Undefined]))).
Proof.
  repeat split.
  - intros fs. eexists. split; [reflexivity |].
    split; [apply assoc_define_same |]. split.
    + rewrite assoc_define_other by discriminate. now rewrite assoc_without.
    + intros k N1 N2. rewrite assoc_define_other by exact N1.
      rewrite assoc_without. cbn [existsb].
      apply String.eqb_neq in N1, N2. now rewrite N1, N2.
  - intros arg Hn. destruct arg; try discriminate; reflexivity.
  - intros [|a [|b rest]] Hl; try reflexivity. now contradiction Hl.
Qed.

(** X16.  [block] and [blockChanges] read [blockId] and [finality] off their
    argument: a block id passed bare, as a number or a string, has neither,
    and the request asks for [{block_id: undefined, finality: undefined}]
    whatever the id; [undefined] and [null] throw a TypeError before
    anything is sent. *)
Theorem bare_block_id_is_dropped fuel this blockQuery (w : World Ext) :
  let empty := Js.Obj [("block_id", Js.Undefined);
                       ("finality", Js.Undefined)] in
  (Js.is_nullish blockQuery = true ->
   run (block parse fuel this blockQuery) w = Some (Abrupt TypeError, w) /\
   run (blockChanges parse fuel this blockQuery) w
     = Some (Abrupt TypeError, w)) /\
  (Js.is_nullish blockQuery = false ->
   (forall fs, blockQuery <> Js.Obj fs) ->
   block (Ext:=Ext) parse fuel this blockQuery
     = sendJsonRpc parse fuel this "block" empty /\
   blockChanges (Ext:=Ext) parse fuel this blockQuery
     = sendJsonRpc parse fuel this "EXPERIMENTAL_changes_in_block" empty).
Proof.
  intros empty. split.
  - intros Hn. destruct blockQuery; try discriminate; split; reflexivity.
  - intros Hn Ho. destruct blockQuery; try discriminate; try (split; reflexivity).
    now destruct (Ho fields).
Qed.



End Further.

(** ** The further properties on concrete transports *)

Lemma no_provider_no_request_witness :
  run (sendJsonRpc wrapping_parser 1 0%nat "status" (Js.Arr []))
      unbound_instance
    = Some (Abrupt (Error "Provider not exist"), unbound_instance).
Proof.
  apply (no_provider_no_request unit wrapping_parser 0%nat 0%nat "status"
           (Js.Arr []) unbound_instance).
  reflexivity.
Defined.

Lemma nullish_reply_raises_TypeError_witness :
  let w := one_instance (constantly Js.Null) tt in
  run (sendJsonRpc wrapping_parser 1 0%nat "status" (Js.Arr [])) w
    = Some (Abrupt TypeError,
            after_request w (request_of w "status" (Js.Arr [])) tt).
Proof.
  apply (nullish_reply_raises_TypeError unit wrapping_parser 0%nat 0%nat
           "status" (Js.Arr []) (one_instance (constantly Js.Null) tt)
           (constantly Js.Null) Js.Null tt);
    reflexivity.
Defined.

Lemma plain_reply_is_returned_witness :
  let w := one_instance (constantly (Js.Bool false)) tt in
  run (sendJsonRpc wrapping_parser 1 0%nat "status" (Js.Arr [])) w
    = Some (Normal (Js.Bool false),
            after_request w (request_of w "status" (Js.Arr [])) tt).
Proof.
  apply (plain_reply_is_returned unit wrapping_parser 0%nat 0%nat
           "status" (Js.Arr [])
           (one_instance (constantly (Js.Bool false)) tt)
           (constantly (Js.Bool false)) (Js.Bool false) tt);
    reflexivity.
Defined.

Lemma error_text_is_lost_witness :
  let reply := Js.Obj [("error", Js.Str "node is syncing")] in
  let w := one_instance (constantly reply) tt in
  run (sendJsonRpc wrapping_parser 1 0%nat "status" (Js.Arr [])) w
    = Some (Abrupt (TypedError "[undefined] undefined: undefined"
                      Js.Undefined),
            after_request w (request_of w "status" (Js.Arr [])) tt).
Proof.
  apply (error_text_is_lost unit wrapping_parser 0%nat 0%nat
           "status" (Js.Arr [])
           (one_instance
              (constantly (Js.Obj [("error", Js.Str "node is syncing")])) tt)
           (constantly (Js.Obj [("error", Js.Str "node is syncing")]))
           (Js.Obj [("error", Js.Str "node is syncing")]) tt
           (Js.Str "node is syncing"));
    try reflexivity.
  discriminate.
Defined.

Lemma rejected_request_witness :
  let reason := Js.Obj [("message", Js.Str "user rejected")] in
  let w := one_instance (rejecting reason) tt in
  run (sendJsonRpc wrapping_parser 1 0%nat "status" (Js.Arr [])) w
    = Some (Abrupt (Rejection reason),
            after_request w (request_of w "status" (Js.Arr [])) tt).
Proof.
  refine (proj1 (rejected_request unit wrapping_parser 0%nat 0%nat
                   "status" (Js.Arr [])
                   (one_instance
                      (rejecting
                         (Js.Obj [("message", Js.Str "user rejected")])) tt)
                   (rejecting (Js.Obj [("message", Js.Str "user rejected")]))
                   (Js.Obj [("message", Js.Str "user rejected")]) tt _ _)
                Js.Undefined _ _);
    reflexivity.
Defined.

Lemma retry_diagnostic_witness :
  let reply := Js.Obj [("error", Js.Obj [("code", Js.Num (-32000));
                                         ("message", Js.Str "timeout");
                                         ("data", Js.Str "Timeout")])] in
  let w := quiet_instance (constantly reply) tt in
  exists w',
    run (attempt wrapping_parser (txStatusString wrapping_parser 0 0%nat)
           0%nat "status" (Js.Arr [])) w = Some (Normal Js.Null, w') /\
    events w' = [Requested (request_of w "status" (Js.Arr []))].
Proof.
  apply (retry_diagnostic unit wrapping_parser
           (txStatusString wrapping_parser 0 0%nat) 0%nat "status"
           (Js.Arr [])
           (quiet_instance
              (constantly
                 (Js.Obj [("error", Js.Obj [("code", Js.Num (-32000));
                                            ("message", Js.Str "timeout");
                                            ("data", Js.Str "Timeout")])]))
              tt)
           (constantly
              (Js.Obj [("error", Js.Obj [("code", Js.Num (-32000));
                                         ("message", Js.Str "timeout");
                                         ("data", Js.Str "Timeout")])]))
           (Js.Obj [("error", Js.Obj [("code", Js.Num (-32000));
                                      ("message", Js.Str "timeout");
                                      ("data", Js.Str "Timeout")])])
           tt eq_refl eq_refl).
  split; [reflexivity |]. eexists. split; [reflexivity |].
  split; reflexivity.
Defined.

Lemma lookup_failure_is_passed_on_witness :
  let failure := Js.Obj [("error", Js.Obj [("code", Js.Num (-32000));
                                           ("message", Js.Str "Server error");
                                           ("data", Js.Str "unknown tx");
                                           ("name", Js.Str "HANDLER_ERROR")])]
  in
  let w := one_instance scripted
             [Resolved (Js.Arr [Js.Str "H9k2"]); Resolved failure] in
  exists w2,
    run (sendJsonRpc wrapping_parser 2 0%nat "broadcast_tx_async"
           (Js.Arr [Js.Str "AAAA"])) w
      = Some (Abrupt (TypedError "[-32000] Server error: unknown tx"
                        (Js.Str "HANDLER_ERROR")), w2).
Proof.
  eexists.
  apply (lookup_failure_is_passed_on (list settled) wrapping_parser 1%nat
           0%nat "broadcast_tx_async" (Js.Arr [Js.Str "AAAA"])
           (one_instance scripted
              [Resolved (Js.Arr [Js.Str "H9k2"]);
               Resolved
                 (Js.Obj [("error",
                           Js.Obj [("code", Js.Num (-32000));
                                   ("message", Js.Str "Server error");
                                   ("data", Js.Str "unknown tx");
                                   ("name", Js.Str "HANDLER_ERROR")])])])
           scripted [Js.Str "H9k2"]
           [Resolved
              (Js.Obj [("error",
                        Js.Obj [("code", Js.Num (-32000));
                                ("message", Js.Str "Server error");
                                ("data", Js.Str "unknown tx");
                                ("name", Js.Str "HANDLER_ERROR")])])]
           (TypedError "[-32000] Server error: unknown tx"
              (Js.Str "HANDLER_ERROR"))
           (Js.Str "HANDLER_ERROR"));
    reflexivity.
Defined.

Lemma echo_hash_always_arrays : always_arrays echo_hash.
Proof. intros r x. now exists [Js.Str "H9k2"], x. Defined.

Lemma arrays_without_end_witness :
  run (sendJsonRpc wrapping_parser 5 0%nat "broadcast_tx_async"
         (Js.Arr [Js.Str "AAAA"]))
      (one_instance echo_hash tt) = None.
Proof.
  apply (arrays_without_end unit wrapping_parser echo_hash
           echo_hash_always_arrays 5%nat 0%nat "broadcast_tx_async"
           (Js.Arr [Js.Str "AAAA"]) (one_instance echo_hash tt)).
  reflexivity.
Defined.

(** A call whose first request times out: what it returns is the reply to
    its second request. *)
Lemma result_is_a_plain_reply_witness :
  let v := Js.Obj [("chain_id", Js.Str "testnet")] in
  let w := one_instance scripted [Resolved timeout_error; Resolved v] in
  exists w',
    run (sendJsonRpc wrapping_parser 1 0%nat "status" (Js.Arr [])) w
      = Some (Normal v, w') /\
    (exists w0 p x evs,
        events w0 = (evs ++ events w)%list /\
        _provider (load 0%nat w0) = Some p /\
        request p (request_of w0 "status" (Js.Arr [])) (ext w0)
          = (Resolved v, x) /\
        w' = after_request w0 (request_of w0 "status" (Js.Arr [])) x) /\
    Js.isArray v = false /\
    Js.is_nullish v = false /\
    Js.truthy (field v "error") = false.
Proof.
  eexists. split; [reflexivity |].
  apply (result_is_a_plain_reply (list settled) wrapping_parser 1%nat 0%nat
           "status" (Js.Arr [])
           (one_instance scripted
              [Resolved timeout_error;
               Resolved (Js.Obj [("chain_id", Js.Str "testnet")])])).
  reflexivity.
Defined.

Lemma sendJsonRpc_keeps_the_fields_witness :
  let w := one_instance
             (constantly (Js.Obj [("chain_id", Js.Str "testnet")])) tt in
  let w' := after_request w (request_of w "status" (Js.Arr [])) tt in
  heap w' = heap w /\ NEAR_NO_LOGS w' = NEAR_NO_LOGS w /\
  nextId w <= nextId w' /\
  exists later, events w' = (later ++ events w)%list.
Proof.
  apply (sendJsonRpc_keeps_the_fields unit wrapping_parser 1%nat 0%nat
           "status" (Js.Arr [])
           (one_instance
              (constantly (Js.Obj [("chain_id", Js.Str "testnet")])) tt)
           (Normal (Js.Obj [("chain_id", Js.Str "testnet")]))).
  reflexivity.
Defined.

Lemma init_sets_network_then_account_witness :
  let reply := Js.Obj [("chain_id", Js.Str "mainnet")] in
  let w := one_instance (constantly reply) tt in
  exists w',
    run (init wrapping_parser 1 0%nat) w = Some (Normal Js.Undefined, w') /\
    load 0%nat w'
      = set_account (Js.Str "alice.testnet")
          (set_network (Js.Str "mainnet") (load 0%nat w)).
Proof.
  refine (proj1 (init_sets_network_then_account unit wrapping_parser 0%nat
                   0%nat
                   (one_instance
                      (constantly (Js.Obj [("chain_id", Js.Str "mainnet")]))
                      tt)
                   (constantly (Js.Obj [("chain_id", Js.Str "mainnet")]))
                   (Js.Obj [("chain_id", Js.Str "mainnet")]) tt
                   _ _ _ _ _ _)
                (Js.Str "alice.testnet") tt _);
    try reflexivity.
  cbn. lia.
Defined.

Lemma updateAccount_then_getters_witness :
  let acct := Js.Obj [("address", Js.Str "bob.testnet");
                      ("pubKeys", Js.Arr [Js.Str "ed25519:abc"])] in
  let w := one_instance (constantly Js.Null) tt in
  exists w',
    run (updateAccount 0%nat acct) w = Some (Normal Js.Undefined, w') /\
    run (account 0%nat) w' = Some (Normal (Js.Str "bob.testnet"), w') /\
    run (pubKeys 0%nat) w'
      = Some (Normal (Js.Arr [Js.Str "ed25519:abc"]), w') /\
    run (network 0%nat) w' = Some (Normal (Js.Str "testnet"), w') /\
    _provider (load 0%nat w') = _provider (load 0%nat w) /\
    forall other, other <> 0%nat -> load other w' = load other w.
Proof.
  refine (proj2 (updateAccount_then_getters unit 0%nat
                   (Js.Obj [("address", Js.Str "bob.testnet");
                            ("pubKeys", Js.Arr [Js.Str "ed25519:abc"])])
                   (one_instance (constantly Js.Null) tt) _) _);
    [cbn; lia | reflexivity].
Defined.

